(** * Doppio [src/enums.ts]: opcode layout table, class states and
      numeric constants.

    The development embeds the enumerations of [enums.ts], the JavaScript
    array [olt] together with the code that fills it, and the numeric
    constants used for float/int reinterpretation. *)

From Stdlib Require Import ZArith Lia.
From Stdlib Require Import Floats.SpecFloat.
From stdpp Require Import base decidable option numbers list sorting strings gmap pretty.

Local Open Scope nat_scope.

(** ** Enumerations *)

(** [enum ClassState]: a TypeScript numeric enum without initialisers
    numbers its members 0, 1, 2, ... in declaration order. *)
Module ClassState.
Inductive t : Set := NOT_LOADED | LOADED | RESOLVED | INITIALIZED.

Definition value (s : t) : nat :=
  match s with
  | NOT_LOADED => 0
  | LOADED => 1
  | RESOLVED => 2
  | INITIALIZED => 3
  end.

#[export] Instance eq_dec : EqDecision t.
Proof. solve_decision. Defined.
End ClassState.

(** [enum OpcodeLayoutType] (the two commented-out members are absent). *)
Module OpcodeLayoutType.
Inductive t : Set :=
  | OPCODE_ONLY
  | CONSTANT_POOL_UINT8
  | CONSTANT_POOL
  | CONSTANT_POOL_AND_UINT8_VALUE
  | UINT8_VALUE
  | UINT8_AND_INT8_VALUE
  | INT8_VALUE
  | INT16_VALUE
  | INT32_VALUE
  | ARRAY_TYPE
  | WIDE.

Definition value (l : t) : nat :=
  match l with
  | OPCODE_ONLY => 0
  | CONSTANT_POOL_UINT8 => 1
  | CONSTANT_POOL => 2
  | CONSTANT_POOL_AND_UINT8_VALUE => 3
  | UINT8_VALUE => 4
  | UINT8_AND_INT8_VALUE => 5
  | INT8_VALUE => 6
  | INT16_VALUE => 7
  | INT32_VALUE => 8
  | ARRAY_TYPE => 9
  | WIDE => 10
  end.

#[export] Instance eq_dec : EqDecision t.
Proof. solve_decision. Defined.
End OpcodeLayoutType.

(** [enum OpCode]: "The enum value corresponds to that opcode's value."
    Members are listed in the order of the source; [IMPDEP1 = 0xfe] and
    [IMPDEP2 = 0xff] are commented out there and so are no members. *)
Module OpCode.
Inductive t : Set :=
    AALOAD | AASTORE | ACONST_NULL | ALOAD | ALOAD_0 | ALOAD_1 | ALOAD_2 | 
    ALOAD_3 | ANEWARRAY | ARETURN | ARRAYLENGTH | ASTORE | ASTORE_0 | ASTORE_1 
    | ASTORE_2 | ASTORE_3 | ATHROW | BALOAD | BASTORE | BIPUSH | BREAKPOINT | 
    CALOAD | CASTORE | CHECKCAST | D2F | D2I | D2L | DADD | DALOAD | DASTORE | 
    DCMPG | DCMPL | DCONST_0 | DCONST_1 | DDIV | DLOAD | DLOAD_0 | DLOAD_1 | 
    DLOAD_2 | DLOAD_3 | DMUL | DNEG | DREM | DRETURN | DSTORE | DSTORE_0 | 
    DSTORE_1 | DSTORE_2 | DSTORE_3 | DSUB | DUP | DUP_X1 | DUP_X2 | DUP2 | 
    DUP2_X1 | DUP2_X2 | F2D | F2I | F2L | FADD | FALOAD | FASTORE | FCMPG | 
    FCMPL | FCONST_0 | FCONST_1 | FCONST_2 | FDIV | FLOAD | FLOAD_0 | FLOAD_1 | 
    FLOAD_2 | FLOAD_3 | FMUL | FNEG | FREM | FRETURN | FSTORE | FSTORE_0 | 
    FSTORE_1 | FSTORE_2 | FSTORE_3 | FSUB | GETFIELD | GETSTATIC | GOTO | 
    GOTO_W | I2B | I2C | I2D | I2F | I2L | I2S | IADD | IALOAD | IAND | IASTORE 
    | ICONST_M1 | ICONST_0 | ICONST_1 | ICONST_2 | ICONST_3 | ICONST_4 | 
    ICONST_5 | IDIV | IF_ACMPEQ | IF_ACMPNE | IF_ICMPEQ | IF_ICMPGE | IF_ICMPGT 
    | IF_ICMPLE | IF_ICMPLT | IF_ICMPNE | IFEQ | IFGE | IFGT | IFLE | IFLT | 
    IFNE | IFNONNULL | IFNULL | IINC | ILOAD | ILOAD_0 | ILOAD_1 | ILOAD_2 | 
    ILOAD_3 | IMUL | INEG | INSTANCEOF | INVOKEDYNAMIC | INVOKEINTERFACE | 
    INVOKESPECIAL | INVOKESTATIC | INVOKEVIRTUAL | IOR | IREM | IRETURN | ISHL 
    | ISHR | ISTORE | ISTORE_0 | ISTORE_1 | ISTORE_2 | ISTORE_3 | ISUB | IUSHR 
    | IXOR | JSR | JSR_W | L2D | L2F | L2I | LADD | LALOAD | LAND | LASTORE | 
    LCMP | LCONST_0 | LCONST_1 | LDC | LDC_W | LDC2_W | LDIV | LLOAD | LLOAD_0 
    | LLOAD_1 | LLOAD_2 | LLOAD_3 | LMUL | LNEG | LOOKUPSWITCH | LOR | LREM | 
    LRETURN | LSHL | LSHR | LSTORE | LSTORE_0 | LSTORE_1 | LSTORE_2 | LSTORE_3 
    | LSUB | LUSHR | LXOR | MONITORENTER | MONITOREXIT | MULTIANEWARRAY | NEW | 
    NEWARRAY | NOP | POP | POP2 | PUTFIELD | PUTSTATIC | RET | RETURN | SALOAD 
    | SASTORE | SIPUSH | SWAP | TABLESWITCH | WIDE | GETSTATIC_FAST32 | 
    GETSTATIC_FAST64 | NEW_FAST | NEW_CL_FAST | NEW_THREAD_FAST | 
    ANEWARRAY_FAST | CHECKCAST_FAST | INSTANCEOF_FAST | MULTIANEWARRAY_FAST | 
    PUTSTATIC_FAST32 | PUTSTATIC_FAST64 | GETFIELD_FAST32 | GETFIELD_FAST64 | 
    PUTFIELD_FAST32 | PUTFIELD_FAST64 | INVOKESPECIAL_FAST | INVOKESTATIC_FAST 
    | INVOKEVIRTUAL_FAST | INVOKEINTERFACE_FAST.

Definition value (o : t) : nat :=
  match o with
    | AALOAD => 0x32
    | AASTORE => 0x53
    | ACONST_NULL => 0x01
    | ALOAD => 0x19
    | ALOAD_0 => 0x2a
    | ALOAD_1 => 0x2b
    | ALOAD_2 => 0x2c
    | ALOAD_3 => 0x2d
    | ANEWARRAY => 0xbd
    | ARETURN => 0xb0
    | ARRAYLENGTH => 0xbe
    | ASTORE => 0x3a
    | ASTORE_0 => 0x4b
    | ASTORE_1 => 0x4c
    | ASTORE_2 => 0x4d
    | ASTORE_3 => 0x4e
    | ATHROW => 0xbf
    | BALOAD => 0x33
    | BASTORE => 0x54
    | BIPUSH => 0x10
    | BREAKPOINT => 0xca
    | CALOAD => 0x34
    | CASTORE => 0x55
    | CHECKCAST => 0xc0
    | D2F => 0x90
    | D2I => 0x8e
    | D2L => 0x8f
    | DADD => 0x63
    | DALOAD => 0x31
    | DASTORE => 0x52
    | DCMPG => 0x98
    | DCMPL => 0x97
    | DCONST_0 => 0x0e
    | DCONST_1 => 0x0f
    | DDIV => 0x6f
    | DLOAD => 0x18
    | DLOAD_0 => 0x26
    | DLOAD_1 => 0x27
    | DLOAD_2 => 0x28
    | DLOAD_3 => 0x29
    | DMUL => 0x6b
    | DNEG => 0x77
    | DREM => 0x73
    | DRETURN => 0xaf
    | DSTORE => 0x39
    | DSTORE_0 => 0x47
    | DSTORE_1 => 0x48
    | DSTORE_2 => 0x49
    | DSTORE_3 => 0x4a
    | DSUB => 0x67
    | DUP => 0x59
    | DUP_X1 => 0x5a
    | DUP_X2 => 0x5b
    | DUP2 => 0x5c
    | DUP2_X1 => 0x5d
    | DUP2_X2 => 0x5e
    | F2D => 0x8d
    | F2I => 0x8b
    | F2L => 0x8c
    | FADD => 0x62
    | FALOAD => 0x30
    | FASTORE => 0x51
    | FCMPG => 0x96
    | FCMPL => 0x95
    | FCONST_0 => 0x0b
    | FCONST_1 => 0x0c
    | FCONST_2 => 0x0d
    | FDIV => 0x6e
    | FLOAD => 0x17
    | FLOAD_0 => 0x22
    | FLOAD_1 => 0x23
    | FLOAD_2 => 0x24
    | FLOAD_3 => 0x25
    | FMUL => 0x6a
    | FNEG => 0x76
    | FREM => 0x72
    | FRETURN => 0xae
    | FSTORE => 0x38
    | FSTORE_0 => 0x43
    | FSTORE_1 => 0x44
    | FSTORE_2 => 0x45
    | FSTORE_3 => 0x46
    | FSUB => 0x66
    | GETFIELD => 0xb4
    | GETSTATIC => 0xb2
    | GOTO => 0xa7
    | GOTO_W => 0xc8
    | I2B => 0x91
    | I2C => 0x92
    | I2D => 0x87
    | I2F => 0x86
    | I2L => 0x85
    | I2S => 0x93
    | IADD => 0x60
    | IALOAD => 0x2e
    | IAND => 0x7e
    | IASTORE => 0x4f
    | ICONST_M1 => 0x2
    | ICONST_0 => 3
    | ICONST_1 => 4
    | ICONST_2 => 5
    | ICONST_3 => 6
    | ICONST_4 => 7
    | ICONST_5 => 8
    | IDIV => 0x6c
    | IF_ACMPEQ => 0xa5
    | IF_ACMPNE => 0xa6
    | IF_ICMPEQ => 0x9f
    | IF_ICMPGE => 0xa2
    | IF_ICMPGT => 0xa3
    | IF_ICMPLE => 0xa4
    | IF_ICMPLT => 0xa1
    | IF_ICMPNE => 0xa0
    | IFEQ => 0x99
    | IFGE => 0x9c
    | IFGT => 0x9d
    | IFLE => 0x9e
    | IFLT => 0x9b
    | IFNE => 0x9a
    | IFNONNULL => 0xc7
    | IFNULL => 0xc6
    | IINC => 0x84
    | ILOAD => 0x15
    | ILOAD_0 => 0x1a
    | ILOAD_1 => 0x1b
    | ILOAD_2 => 0x1c
    | ILOAD_3 => 0x1d
    | IMUL => 0x68
    | INEG => 0x74
    | INSTANCEOF => 0xc1
    | INVOKEDYNAMIC => 0xba
    | INVOKEINTERFACE => 0xb9
    | INVOKESPECIAL => 0xb7
    | INVOKESTATIC => 0xb8
    | INVOKEVIRTUAL => 0xb6
    | IOR => 0x80
    | IREM => 0x70
    | IRETURN => 0xac
    | ISHL => 0x78
    | ISHR => 0x7a
    | ISTORE => 0x36
    | ISTORE_0 => 0x3b
    | ISTORE_1 => 0x3c
    | ISTORE_2 => 0x3d
    | ISTORE_3 => 0x3e
    | ISUB => 0x64
    | IUSHR => 0x7c
    | IXOR => 0x82
    | JSR => 0xa8
    | JSR_W => 0xc9
    | L2D => 0x8a
    | L2F => 0x89
    | L2I => 0x88
    | LADD => 0x61
    | LALOAD => 0x2f
    | LAND => 0x7f
    | LASTORE => 0x50
    | LCMP => 0x94
    | LCONST_0 => 0x09
    | LCONST_1 => 0x0a
    | LDC => 0x12
    | LDC_W => 0x13
    | LDC2_W => 0x14
    | LDIV => 0x6d
    | LLOAD => 0x16
    | LLOAD_0 => 0x1e
    | LLOAD_1 => 0x1f
    | LLOAD_2 => 0x20
    | LLOAD_3 => 0x21
    | LMUL => 0x69
    | LNEG => 0x75
    | LOOKUPSWITCH => 0xab
    | LOR => 0x81
    | LREM => 0x71
    | LRETURN => 0xad
    | LSHL => 0x79
    | LSHR => 0x7b
    | LSTORE => 0x37
    | LSTORE_0 => 0x3f
    | LSTORE_1 => 0x40
    | LSTORE_2 => 0x41
    | LSTORE_3 => 0x42
    | LSUB => 0x65
    | LUSHR => 0x7d
    | LXOR => 0x83
    | MONITORENTER => 0xc2
    | MONITOREXIT => 0xc3
    | MULTIANEWARRAY => 0xc5
    | NEW => 0xbb
    | NEWARRAY => 0xbc
    | NOP => 0x00
    | POP => 0x57
    | POP2 => 0x58
    | PUTFIELD => 0xb5
    | PUTSTATIC => 0xb3
    | RET => 0xa9
    | RETURN => 0xb1
    | SALOAD => 0x35
    | SASTORE => 0x56
    | SIPUSH => 0x11
    | SWAP => 0x5f
    | TABLESWITCH => 0xaa
    | WIDE => 0xc4
    | GETSTATIC_FAST32 => 0xd0
    | GETSTATIC_FAST64 => 0xd1
    | NEW_FAST => 0xd2
    | NEW_CL_FAST => 0xd3
    | NEW_THREAD_FAST => 0xd4
    | ANEWARRAY_FAST => 0xd5
    | CHECKCAST_FAST => 0xd6
    | INSTANCEOF_FAST => 0xd7
    | MULTIANEWARRAY_FAST => 0xd8
    | PUTSTATIC_FAST32 => 0xd9
    | PUTSTATIC_FAST64 => 0xda
    | GETFIELD_FAST32 => 0xdb
    | GETFIELD_FAST64 => 0xdc
    | PUTFIELD_FAST32 => 0xdd
    | PUTFIELD_FAST64 => 0xde
    | INVOKESPECIAL_FAST => 0xdf
    | INVOKESTATIC_FAST => 0xf0
    | INVOKEVIRTUAL_FAST => 0xf1
    | INVOKEINTERFACE_FAST => 0xf2
  end.

(** Every member, in declaration order. *)
Definition members : list t :=
  [
    AALOAD; AASTORE; ACONST_NULL; ALOAD; ALOAD_0; ALOAD_1; ALOAD_2; ALOAD_3; 
    ANEWARRAY; ARETURN; ARRAYLENGTH; ASTORE; ASTORE_0; ASTORE_1; ASTORE_2; 
    ASTORE_3; ATHROW; BALOAD; BASTORE; BIPUSH; BREAKPOINT; CALOAD; CASTORE; 
    CHECKCAST; D2F; D2I; D2L; DADD; DALOAD; DASTORE; DCMPG; DCMPL; DCONST_0; 
    DCONST_1; DDIV; DLOAD; DLOAD_0; DLOAD_1; DLOAD_2; DLOAD_3; DMUL; DNEG; 
    DREM; DRETURN; DSTORE; DSTORE_0; DSTORE_1; DSTORE_2; DSTORE_3; DSUB; DUP; 
    DUP_X1; DUP_X2; DUP2; DUP2_X1; DUP2_X2; F2D; F2I; F2L; FADD; FALOAD; 
    FASTORE; FCMPG; FCMPL; FCONST_0; FCONST_1; FCONST_2; FDIV; FLOAD; FLOAD_0; 
    FLOAD_1; FLOAD_2; FLOAD_3; FMUL; FNEG; FREM; FRETURN; FSTORE; FSTORE_0; 
    FSTORE_1; FSTORE_2; FSTORE_3; FSUB; GETFIELD; GETSTATIC; GOTO; GOTO_W; I2B; 
    I2C; I2D; I2F; I2L; I2S; IADD; IALOAD; IAND; IASTORE; ICONST_M1; ICONST_0; 
    ICONST_1; ICONST_2; ICONST_3; ICONST_4; ICONST_5; IDIV; IF_ACMPEQ; 
    IF_ACMPNE; IF_ICMPEQ; IF_ICMPGE; IF_ICMPGT; IF_ICMPLE; IF_ICMPLT; 
    IF_ICMPNE; IFEQ; IFGE; IFGT; IFLE; IFLT; IFNE; IFNONNULL; IFNULL; IINC; 
    ILOAD; ILOAD_0; ILOAD_1; ILOAD_2; ILOAD_3; IMUL; INEG; INSTANCEOF; 
    INVOKEDYNAMIC; INVOKEINTERFACE; INVOKESPECIAL; INVOKESTATIC; INVOKEVIRTUAL; 
    IOR; IREM; IRETURN; ISHL; ISHR; ISTORE; ISTORE_0; ISTORE_1; ISTORE_2; 
    ISTORE_3; ISUB; IUSHR; IXOR; JSR; JSR_W; L2D; L2F; L2I; LADD; LALOAD; LAND; 
    LASTORE; LCMP; LCONST_0; LCONST_1; LDC; LDC_W; LDC2_W; LDIV; LLOAD; 
    LLOAD_0; LLOAD_1; LLOAD_2; LLOAD_3; LMUL; LNEG; LOOKUPSWITCH; LOR; LREM; 
    LRETURN; LSHL; LSHR; LSTORE; LSTORE_0; LSTORE_1; LSTORE_2; LSTORE_3; LSUB; 
    LUSHR; LXOR; MONITORENTER; MONITOREXIT; MULTIANEWARRAY; NEW; NEWARRAY; NOP; 
    POP; POP2; PUTFIELD; PUTSTATIC; RET; RETURN; SALOAD; SASTORE; SIPUSH; SWAP; 
    TABLESWITCH; WIDE; GETSTATIC_FAST32; GETSTATIC_FAST64; NEW_FAST; 
    NEW_CL_FAST; NEW_THREAD_FAST; ANEWARRAY_FAST; CHECKCAST_FAST; 
    INSTANCEOF_FAST; MULTIANEWARRAY_FAST; PUTSTATIC_FAST32; PUTSTATIC_FAST64; 
    GETFIELD_FAST32; GETFIELD_FAST64; PUTFIELD_FAST32; PUTFIELD_FAST64; 
    INVOKESPECIAL_FAST; INVOKESTATIC_FAST; INVOKEVIRTUAL_FAST; 
    INVOKEINTERFACE_FAST
  ].

(** The reverse mapping that a TypeScript numeric enum carries
    ([OpCode[0x32]] names [AALOAD]): the first member with that value. *)
Definition of_value (v : nat) : option t :=
  List.find (fun o => Nat.eqb (value o) v) members.
End OpCode.

(** [enum Constants]: "Various constant values."  Every initialiser
    denotes an integer, so the members are modelled in [Z]. *)
Module Constants.
Definition INT_MAX : Z := 2 ^ 31 - 1.
Definition INT_MIN : Z := - INT_MAX - 1.
Definition FLOAT_POS_INFINITY : Z := 2 ^ 128.
Definition FLOAT_NEG_INFINITY : Z := -1 * FLOAT_POS_INFINITY.
Definition FLOAT_POS_INFINITY_AS_INT : Z := 0x7F800000.
Definition FLOAT_NEG_INFINITY_AS_INT : Z := -8388608.
Definition FLOAT_NaN_AS_INT : Z := 0x7fc00000.
End Constants.

(** ** JavaScript arrays

    A JavaScript array is a list of slots; a slot holds a value or is a
    hole.  Reading a hole, or an index at or beyond [length], yields
    [undefined] (here [None]).  Writing at or beyond [length] extends
    the array, leaving holes in between. *)
Module JsArray.
(** [new Array(n)]: [n] holes. *)
Definition create {A : Type} (n : nat) : list (option A) := replicate n None.

(** [a[i]] *)
Definition get {A : Type} (a : list (option A)) (i : nat) : option A :=
  a !! i ≫= id.

(** [a[i] = v] *)
Definition set {A : Type} (a : list (option A)) (i : nat) (v : A)
    : list (option A) :=
  if decide (i < length a) then <[i := Some v]> a
  else a ++ replicate (i - length a) None ++ [Some v].
End JsArray.

(** ** The opcode layout table *)

Import OpcodeLayoutType.

(** [var olt = new Array(0xff)] followed by the loop
    [for (var i = 0; i < 0xff; i++) olt[i] = OPCODE_ONLY]. *)
Definition olt_new : list (option OpcodeLayoutType.t) := JsArray.create 0xff.

Definition olt_init : list (option OpcodeLayoutType.t) :=
  foldl (λ olt i, JsArray.set olt i OPCODE_ONLY) olt_new (seq 0 0xff).

(** [assignOpcodeLayout(layoutType, opcodes)], with the global [olt]
    threaded through: [forEach] visits [opcodes] from left to right and
    stores [layoutType] at index [opcode]. *)
Definition assignOpcodeLayout (layoutType : OpcodeLayoutType.t)
    (opcodes : list OpCode.t) (olt : list (option OpcodeLayoutType.t))
    : list (option OpcodeLayoutType.t) :=
  foldl (λ olt opcode, JsArray.set olt (OpCode.value opcode) layoutType)
        olt opcodes.

(** The nine top-level calls of [assignOpcodeLayout], in source order. *)
Definition assignments : list (OpcodeLayoutType.t * list OpCode.t) :=
  [ (UINT8_VALUE,
      [OpCode.ALOAD; OpCode.ASTORE; OpCode.DLOAD; OpCode.DSTORE;
       OpCode.FLOAD; OpCode.FSTORE; OpCode.ILOAD; OpCode.ISTORE;
       OpCode.LLOAD; OpCode.LSTORE; OpCode.RET]);
    (CONSTANT_POOL_UINT8, [OpCode.LDC]);
    (CONSTANT_POOL,
      [OpCode.LDC_W; OpCode.LDC2_W;
       OpCode.ANEWARRAY; OpCode.CHECKCAST; OpCode.GETFIELD;
       OpCode.GETSTATIC; OpCode.INSTANCEOF; OpCode.INVOKEDYNAMIC;
       OpCode.INVOKESPECIAL; OpCode.INVOKESTATIC; OpCode.INVOKEVIRTUAL;
       OpCode.NEW; OpCode.PUTFIELD; OpCode.PUTSTATIC; OpCode.MULTIANEWARRAY_FAST;
       OpCode.INVOKESPECIAL_FAST; OpCode.INVOKESTATIC_FAST; OpCode.CHECKCAST_FAST;
       OpCode.NEW_FAST; OpCode.NEW_CL_FAST; OpCode.NEW_THREAD_FAST;
       OpCode.ANEWARRAY_FAST; OpCode.INSTANCEOF_FAST; OpCode.GETSTATIC_FAST32;
       OpCode.GETSTATIC_FAST64; OpCode.PUTSTATIC_FAST32; OpCode.PUTSTATIC_FAST64;
       OpCode.PUTFIELD_FAST32; OpCode.PUTFIELD_FAST64;
       OpCode.GETFIELD_FAST32; OpCode.GETFIELD_FAST64; OpCode.INVOKEVIRTUAL_FAST]);
    (CONSTANT_POOL_AND_UINT8_VALUE,
      [OpCode.INVOKEINTERFACE; OpCode.MULTIANEWARRAY; OpCode.INVOKEINTERFACE_FAST]);
    (INT8_VALUE, [OpCode.BIPUSH]);
    (INT16_VALUE,
      [OpCode.SIPUSH; OpCode.GOTO; OpCode.IFGT; OpCode.IFEQ; OpCode.IFGE; OpCode.IFLE;
       OpCode.IFLT; OpCode.IFNE; OpCode.IFNULL; OpCode.IFNONNULL; OpCode.IF_ICMPLE;
       OpCode.IF_ACMPEQ; OpCode.IF_ACMPNE; OpCode.IF_ICMPEQ; OpCode.IF_ICMPGE;
       OpCode.IF_ICMPGT; OpCode.IF_ICMPLT; OpCode.IF_ICMPNE; OpCode.JSR]);
    (INT32_VALUE, [OpCode.GOTO_W; OpCode.JSR_W]);
    (UINT8_AND_INT8_VALUE, [OpCode.IINC]);
    (ARRAY_TYPE, [OpCode.NEWARRAY]) ].

(** Running a sequence of [assignOpcodeLayout] calls on a table. *)
Definition run_assignments
    (calls : list (OpcodeLayoutType.t * list OpCode.t))
    (olt : list (option OpcodeLayoutType.t))
    : list (option OpcodeLayoutType.t) :=
  foldl (λ olt call, assignOpcodeLayout call.1 call.2 olt) olt calls.

(** [export var OpcodeLayouts = olt], read after the module has run. *)
Definition OpcodeLayouts : list (option OpcodeLayoutType.t) :=
  run_assignments assignments olt_init.

(** [OpcodeLayouts[b]] *)
Definition layoutOf (b : nat) : option OpcodeLayoutType.t :=
  JsArray.get OpcodeLayouts b.

(** The index values named by a sequence of calls. *)
Definition assigned_values
    (calls : list (OpcodeLayoutType.t * list OpCode.t)) : list nat :=
  calls ≫= (λ call, OpCode.value <$> call.2).

(** The shape shared by the initialisation loop and by [forEach]: store
    [v] at index [f x] for each [x] in turn. *)
Definition store_all {A X : Type} (f : X → nat) (v : A)
    (a : list (option A)) (xs : list X) : list (option A) :=
  foldl (λ a x, JsArray.set a (f x) v) a xs.

(** The "Special Doppio 'fast' opcodes" and the opcode each one is named
    after: [X_FAST], [X_FAST32] and [X_FAST64] come from [X]; [NEW_CL_FAST]
    and [NEW_THREAD_FAST] are further variants of [NEW].  Members outside
    that block have no source opcode. *)
Definition fast_source (o : OpCode.t) : option OpCode.t :=
  match o with
  | OpCode.GETSTATIC_FAST32 | OpCode.GETSTATIC_FAST64 => Some OpCode.GETSTATIC
  | OpCode.NEW_FAST | OpCode.NEW_CL_FAST | OpCode.NEW_THREAD_FAST =>
      Some OpCode.NEW
  | OpCode.ANEWARRAY_FAST => Some OpCode.ANEWARRAY
  | OpCode.CHECKCAST_FAST => Some OpCode.CHECKCAST
  | OpCode.INSTANCEOF_FAST => Some OpCode.INSTANCEOF
  | OpCode.MULTIANEWARRAY_FAST => Some OpCode.MULTIANEWARRAY
  | OpCode.PUTSTATIC_FAST32 | OpCode.PUTSTATIC_FAST64 => Some OpCode.PUTSTATIC
  | OpCode.GETFIELD_FAST32 | OpCode.GETFIELD_FAST64 => Some OpCode.GETFIELD
  | OpCode.PUTFIELD_FAST32 | OpCode.PUTFIELD_FAST64 => Some OpCode.PUTFIELD
  | OpCode.INVOKESPECIAL_FAST => Some OpCode.INVOKESPECIAL
  | OpCode.INVOKESTATIC_FAST => Some OpCode.INVOKESTATIC
  | OpCode.INVOKEVIRTUAL_FAST => Some OpCode.INVOKEVIRTUAL
  | OpCode.INVOKEINTERFACE_FAST => Some OpCode.INVOKEINTERFACE
  | _ => None
  end.

(** The members of the 'fast' block, [0xd0] to [0xdf] and [0xf0] to [0xf2]. *)
Definition fast_opcodes : list OpCode.t :=
  filter (λ o, is_Some (fast_source o)) OpCode.members.

(** ** 32-bit integers

    The [*_AS_INT] constants are JVM [int] values: 32-bit patterns read
    in two's complement. *)
Module Int32.
(** The unsigned reading of a 32-bit pattern (JavaScript's [x >>> 0]). *)
Definition to_uint32 (i : Z) : Z := (i mod 2 ^ 32)%Z.

(** The two's-complement reading of a 32-bit pattern (JavaScript's
    [x | 0]). *)
Definition to_int32 (u : Z) : Z :=
  let w := (u mod 2 ^ 32)%Z in
  if (w <? 2 ^ 31)%Z then w else (w - 2 ^ 32)%Z.
End Int32.

(** ** Float/int reinterpretation *)

(** Modelled from the spec: [floatBitsToInt] and [intBitsToFloat] are not
    part of [enums.ts], which only supplies the [*_AS_INT] constants they
    use.  The spec (4.4) asks for [floatBitsToInt(f) -> int32], "where any
    NaN input maps to the single canonical NaN pattern, and
    positive/negative infinity map to their fixed bit patterns", and for
    [intBitsToFloat(i) -> float], "the inverse, total over all 32-bit
    inputs"; floats are "IEEE-754 single-precision values" and "the host
    numeric type has only one NaN value".  A float is therefore a
    [spec_float] (one NaN, no payload) that is valid for binary32
    ([prec = 24], [emax = 128]), and the bit pattern of a finite value is
    its IEEE-754 binary32 interchange encoding: sign in bit 31, biased
    exponent in bits 30..23, fraction in bits 22..0. *)
Module FloatBits.
Local Open Scope Z_scope.

Definition prec : Z := 24.
Definition emax : Z := 128.

(** The single-precision values. *)
Definition is_float32 (x : spec_float) : bool := valid_binary prec emax x.

(** Neither NaN nor an infinity. *)
Definition is_finite (x : spec_float) : bool :=
  match x with
  | S754_zero _ | S754_finite _ _ _ => true
  | S754_infinity _ | S754_nan => false
  end.

(** Sign, biased exponent and fraction fields laid out in a word. *)
Definition join_bits (s : bool) (e m : Z) : Z :=
  (if s then 2 ^ 31 else 0) + e * 2 ^ 23 + m.

Definition floatBitsToInt (f : spec_float) : Z :=
  match f with
  | S754_nan => Constants.FLOAT_NaN_AS_INT
  | S754_infinity false => Constants.FLOAT_POS_INFINITY_AS_INT
  | S754_infinity true => Constants.FLOAT_NEG_INFINITY_AS_INT
  | S754_zero s => Int32.to_int32 (join_bits s 0 0)
  | S754_finite s m e =>
      if 2 ^ 23 <=? Z.pos m
      then Int32.to_int32 (join_bits s (e + 150) (Z.pos m - 2 ^ 23))
      else Int32.to_int32 (join_bits s 0 (Z.pos m))
  end.

Definition intBitsToFloat (i : Z) : spec_float :=
  let w := Int32.to_uint32 i in
  let s := 2 ^ 31 <=? w in
  let e := (w / 2 ^ 23) mod 2 ^ 8 in
  let m := w mod 2 ^ 23 in
  if e =? 0 then
    match m with
    | Z.pos p => S754_finite s p (-149)
    | _ => S754_zero s
    end
  else if e =? 255 then
    if m =? 0 then S754_infinity s else S754_nan
  else
    match m + 2 ^ 23 with
    | Z.pos p => S754_finite s p (e - 150)
    | _ => S754_nan
    end.

(** The round trip float -> int -> float of the spec's round-trip law. *)
Definition round_trip (x : spec_float) : spec_float :=
  intBitsToFloat (floatBitsToInt x).
End FloatBits.

(** ** Class lifecycle *)

(** Modelled from the spec: the class-loading pipeline that moves a class
    between states is not part of [enums.ts], which only declares
    [ClassState].  The spec (3, 4.3, 6, 7) describes a registry with
    [advance(class, targetState)] and [currentState(class)]: a class is
    "created NOT_LOADED when a class reference is first encountered";
    the progression is linear, "no step may be skipped or reversed";
    a request for the state a class already has is "a no-op success";
    "advancing a class state out of order" is "rejected with a
    state-precondition fault". *)
Module ClassLifecycle.
Import ClassState.

(** The lifecycle order. *)
Definition lifecycle : list ClassState.t :=
  [NOT_LOADED; LOADED; RESOLVED; INITIALIZED].

(** The next step of the linear progression. *)
Definition next (s : ClassState.t) : option ClassState.t :=
  match s with
  | NOT_LOADED => Some LOADED
  | LOADED => Some RESOLVED
  | RESOLVED => Some INITIALIZED
  | INITIALIZED => None
  end.

(** One request on one class: the new state, or [None] for the
    state-precondition fault. *)
Definition advance_state (cur target : ClassState.t) : option ClassState.t :=
  if decide (target = cur) then Some cur
  else if decide (next cur = Some target) then Some target
  else None.

(** The registry: class name to state; an absent class is [NOT_LOADED]. *)
Definition currentState (reg : gmap string ClassState.t) (c : string)
    : ClassState.t :=
  default NOT_LOADED (reg !! c).

Definition advance (reg : gmap string ClassState.t) (c : string)
    (target : ClassState.t) : option (gmap string ClassState.t) :=
  s ← advance_state (currentState reg c) target; Some (<[c := s]> reg).

(** A rejected request leaves the registry as it was. *)
Definition request (reg : gmap string ClassState.t)
    (r : string * ClassState.t) : gmap string ClassState.t :=
  default reg (advance reg r.1 r.2).

(** The states of class [c] observed after each request of a run. *)
Fixpoint observe (reg : gmap string ClassState.t)
    (reqs : list (string * ClassState.t)) (c : string) : list ClassState.t :=
  match reqs with
  | [] => []
  | r :: reqs =>
      let reg' := request reg r in
      currentState reg' c :: observe reg' reqs c
  end.

(** The observed states of [c] over a run that starts from the empty
    registry: its first state, then one observation per request. *)
Definition observed (reqs : list (string * ClassState.t)) (c : string)
    : list ClassState.t :=
  currentState ∅ c :: observe ∅ reqs c.

(** Successive observations of an unchanged state count once. *)
Fixpoint collapse (l : list ClassState.t) : list ClassState.t :=
  match l with
  | [] => []
  | x :: rest =>
      match rest with
      | [] => [x]
      | y :: _ => if decide (x = y) then collapse rest else x :: collapse rest
      end
  end.

(** A run of states in which each one repeats its predecessor or is the
    next step after it; [s] is the state before the run. *)
Fixpoint stepwise (s : ClassState.t) (l : list ClassState.t) : Prop :=
  match l with
  | [] => True
  | s' :: l' => (s' = s ∨ next s = Some s') ∧ stepwise s' l'
  end.
End ClassLifecycle.

(** ** Further tables of [enums.ts] *)

(** [enum ConstantPoolItemType]: "Integer indicating the type of a
    constant pool item", in declaration order. *)
Module ConstantPoolItemType.
Inductive t : Set :=
  | CLASS | FIELDREF | METHODREF | INTERFACE_METHODREF | STRING | INTEGER
  | FLOAT | LONG | DOUBLE | NAME_AND_TYPE | UTF8 | METHOD_HANDLE
  | METHOD_TYPE | INVOKE_DYNAMIC.

Definition value (c : t) : nat :=
  match c with
  | CLASS => 7
  | FIELDREF => 9
  | METHODREF => 10
  | INTERFACE_METHODREF => 11
  | STRING => 8
  | INTEGER => 3
  | FLOAT => 4
  | LONG => 5
  | DOUBLE => 6
  | NAME_AND_TYPE => 12
  | UTF8 => 1
  | METHOD_HANDLE => 15
  | METHOD_TYPE => 16
  | INVOKE_DYNAMIC => 18
  end.

Definition members : list t :=
  [CLASS; FIELDREF; METHODREF; INTERFACE_METHODREF; STRING; INTEGER;
   FLOAT; LONG; DOUBLE; NAME_AND_TYPE; UTF8; METHOD_HANDLE;
   METHOD_TYPE; INVOKE_DYNAMIC].

#[export] Instance eq_dec : EqDecision t.
Proof. solve_decision. Defined.
End ConstantPoolItemType.

(** ** [Threading.java]: the producer and the consumer

    The classes [Q], [Producer] and [Consumer], and [main] from
    [Q q = new Q()] on (lines 26 to 28), as a transition system.  Each
    thread has a program point per statement; the scheduler picks which
    thread takes the next step.  The monitor of [q] follows the Java
    rules: a [synchronized] method acquires it on entry and releases it
    on return; [wait()] releases it and suspends the caller until another
    thread's [notify()] or an interrupt removes it from the wait set,
    after which the caller must reacquire the monitor; a caller whose
    interrupt status is already set gets the [InterruptedException] at
    once.  A waiting thread wakes for no other reason.  Nothing in the
    program interrupts the two threads; [Interrupt] is an action of the
    environment, absent from the runs of the program itself. *)
Module Threading.
Local Open Scope Z_scope.

Inductive tid : Set := Main | ProducerT | ConsumerT.

(** Program points of [Producer.run] and [Q.put]; [i] is the loop
    variable, which is also the argument [n] of [put]. *)
Inductive ppc : Set :=
  | P_new                          (* thread not started *)
  | P_loop (i : Z)                 (* line 69: [i<5] *)
  | P_enter (i : Z)                (* line 70: [q.put(i)], monitor entry *)
  | P_test (i : Z)                 (* line 49: [if(valueSet)] *)
  | P_wait (i : Z)                 (* line 51: [wait()] *)
  | P_waiting (i : Z)              (* in the wait set *)
  | P_wake (i : Z) (intr : bool)   (* out of the wait set, monitor needed *)
  | P_caught (i : Z)               (* line 53 *)
  | P_store (i : Z)                (* line 55: [this.n = n] *)
  | P_set (i : Z)                  (* line 56: [valueSet = true] *)
  | P_print (i : Z)                (* line 57 *)
  | P_notify (i : Z)               (* line 58: [notify()] *)
  | P_exit (i : Z)                 (* monitor exit, then [++i] *)
  | P_done.

(** Program points of [Consumer.run] and [Q.get]. *)
Inductive cpc : Set :=
  | C_new                          (* thread not started *)
  | C_enter                        (* line 83: [q.get()], monitor entry *)
  | C_test                         (* line 37: [if(!valueSet)] *)
  | C_wait                         (* line 39: [wait()] *)
  | C_waiting                      (* in the wait set *)
  | C_wake (intr : bool)           (* out of the wait set, monitor needed *)
  | C_caught                       (* line 41 *)
  | C_print                        (* line 43 *)
  | C_clear                        (* line 44: [valueSet = false] *)
  | C_notify                       (* line 45: [notify()] *)
  | C_return                       (* line 46: [return n], monitor exit *)
  | C_check (r : Z)                (* line 83: [== 4], [break] *)
  | C_done.

(** Program points of [main]. *)
Inductive mpc : Set :=
  | M_producer                     (* line 27: [new Producer(q)] *)
  | M_consumer                     (* line 28: [new Consumer(q)] *)
  | M_done.

(** The fields of [q], the owner of its monitor, the three threads, the
    interrupt status of the two workers, the lines printed so far and,
    as a history, the values [get] has returned. *)
Record state : Set := State {
  n : Z;
  valueSet : bool;
  owner : option tid;
  prod : ppc;
  cons : cpc;
  main : mpc;
  intr_prod : bool;
  intr_cons : bool;
  out : list string;
  returned : list Z
}.

#[export] Instance tid_eq_dec : EqDecision tid.
Proof. solve_decision. Defined.
#[export] Instance ppc_eq_dec : EqDecision ppc.
Proof. solve_decision. Defined.
#[export] Instance cpc_eq_dec : EqDecision cpc.
Proof. solve_decision. Defined.
#[export] Instance mpc_eq_dec : EqDecision mpc.
Proof. solve_decision. Defined.
#[export] Instance state_eq_dec : EqDecision state.
Proof. solve_decision. Defined.

Definition set_n (v : Z) (s : state) : state :=
  State v (valueSet s) (owner s) (prod s) (cons s) (main s)
        (intr_prod s) (intr_cons s) (out s) (returned s).
Definition set_valueSet (v : bool) (s : state) : state :=
  State (n s) v (owner s) (prod s) (cons s) (main s)
        (intr_prod s) (intr_cons s) (out s) (returned s).
Definition set_owner (v : option tid) (s : state) : state :=
  State (n s) (valueSet s) v (prod s) (cons s) (main s)
        (intr_prod s) (intr_cons s) (out s) (returned s).
Definition set_prod (v : ppc) (s : state) : state :=
  State (n s) (valueSet s) (owner s) v (cons s) (main s)
        (intr_prod s) (intr_cons s) (out s) (returned s).
Definition set_cons (v : cpc) (s : state) : state :=
  State (n s) (valueSet s) (owner s) (prod s) v (main s)
        (intr_prod s) (intr_cons s) (out s) (returned s).
Definition set_main (v : mpc) (s : state) : state :=
  State (n s) (valueSet s) (owner s) (prod s) (cons s) v
        (intr_prod s) (intr_cons s) (out s) (returned s).
Definition set_intr_prod (v : bool) (s : state) : state :=
  State (n s) (valueSet s) (owner s) (prod s) (cons s) (main s)
        v (intr_cons s) (out s) (returned s).
Definition set_intr_cons (v : bool) (s : state) : state :=
  State (n s) (valueSet s) (owner s) (prod s) (cons s) (main s)
        (intr_prod s) v (out s) (returned s).

(** [System.out.println(line)] *)
Definition println (line : string) (s : state) : state :=
  State (n s) (valueSet s) (owner s) (prod s) (cons s) (main s)
        (intr_prod s) (intr_cons s) (out s ++ [line]) (returned s).

Definition record_return (r : Z) (s : state) : state :=
  State (n s) (valueSet s) (owner s) (prod s) (cons s) (main s)
        (intr_prod s) (intr_cons s) (out s) (returned s ++ [r]).

(** [int n] is 0 and [valueSet] is [false] in a new [Q]; no thread runs
    yet but [main]. *)
Definition init : state :=
  State 0 false None P_new C_new M_producer false false [] [].

(** Monitor entry: possible when the monitor is free. *)
Definition acquire (t : tid) (s : state) (k : state → state) : list state :=
  match owner s with
  | None => [k (set_owner (Some t) s)]
  | Some _ => []
  end.

(** [notify()]: when threads wait, any one of them leaves the wait set;
    otherwise nothing happens. *)
Definition notify (s : state) : list state :=
  let wake_prod :=
    match prod s with
    | P_waiting i => [set_prod (P_wake i false) s]
    | _ => []
    end in
  let wake_cons :=
    match cons s with
    | C_waiting => [set_cons (C_wake false) s]
    | _ => []
    end in
  match wake_prod ++ wake_cons with
  | [] => [s]
  | woken => woken
  end.

(** One step of the producer thread. *)
Definition step_producer (s : state) : list state :=
  match prod s with
  | P_new => []
  | P_loop i =>
      if i <? 5 then [set_prod (P_enter i) s] else [set_prod P_done s]
  | P_enter i => acquire ProducerT s (set_prod (P_test i))
  | P_test i =>
      if valueSet s then [set_prod (P_wait i) s]
      else [set_prod (P_store i) s]
  | P_wait i =>
      if intr_prod s
      then [set_prod (P_caught i) (set_intr_prod false s)]
      else [set_prod (P_waiting i) (set_owner None s)]
  | P_waiting i => []
  | P_wake i intr =>
      acquire ProducerT s
        (set_prod (if intr then P_caught i else P_store i))
  | P_caught i =>
      [set_prod (P_store i) (println "InterruptedException caught" s)]
  | P_store i => [set_prod (P_set i) (set_n i s)]
  | P_set i => [set_prod (P_print i) (set_valueSet true s)]
  | P_print i => [set_prod (P_notify i) (println ("Put: " +:+ pretty i) s)]
  | P_notify i => notify (set_prod (P_exit i) s)
  | P_exit i => [set_prod (P_loop (i + 1)) (set_owner None s)]
  | P_done => []
  end.

(** One step of the consumer thread. *)
Definition step_consumer (s : state) : list state :=
  match cons s with
  | C_new => []
  | C_enter => acquire ConsumerT s (set_cons C_test)
  | C_test =>
      if negb (valueSet s) then [set_cons C_wait s]
      else [set_cons C_print s]
  | C_wait =>
      if intr_cons s
      then [set_cons C_caught (set_intr_cons false s)]
      else [set_cons C_waiting (set_owner None s)]
  | C_waiting => []
  | C_wake intr =>
      acquire ConsumerT s (set_cons (if intr then C_caught else C_print))
  | C_caught =>
      [set_cons C_print (println "InterruptedException caught" s)]
  | C_print => [set_cons C_clear (println ("Got: " +:+ pretty (n s)) s)]
  | C_clear => [set_cons C_notify (set_valueSet false s)]
  | C_notify => notify (set_cons C_return s)
  | C_return =>
      [set_cons (C_check (n s)) (set_owner None (record_return (n s) s))]
  | C_check r =>
      if r =? 4 then [set_cons C_done s] else [set_cons C_enter s]
  | C_done => []
  end.

(** One step of [main]: each constructor starts its thread. *)
Definition step_main (s : state) : list state :=
  match main s with
  | M_producer => [set_main M_consumer (set_prod (P_loop 0) s)]
  | M_consumer => [set_main M_done (set_cons C_enter s)]
  | M_done => []
  end.

Definition step (t : tid) (s : state) : list state :=
  match t with
  | Main => step_main s
  | ProducerT => step_producer s
  | ConsumerT => step_consumer s
  end.

(** [Thread.interrupt()] on a worker, by the environment: a thread in
    the wait set leaves it and will get the exception once it has the
    monitor again; a thread that is not alive is not affected; any other
    thread has its interrupt status set.  [main] does not wait in the
    lines modelled, so its interrupt status is not kept. *)
Definition interrupt (t : tid) (s : state) : list state :=
  match t with
  | Main => [s]
  | ProducerT =>
      match prod s with
      | P_new | P_done => [s]
      | P_waiting i => [set_prod (P_wake i true) s]
      | _ => [set_intr_prod true s]
      end
  | ConsumerT =>
      match cons s with
      | C_new | C_done => [s]
      | C_waiting => [set_cons (C_wake true) s]
      | _ => [set_intr_cons true s]
      end
  end.

Inductive action : Set := Run (t : tid) | Interrupt (t : tid).

Definition act (a : action) (s : state) : list state :=
  match a with
  | Run t => step t s
  | Interrupt t => interrupt t s
  end.

(** The states in which a sequence of actions can end; an action that is
    not enabled leaves none. *)
Fixpoint exec (acts : list action) (s : state) : list state :=
  match acts with
  | [] => [s]
  | a :: acts => act a s ≫= exec acts
  end.

(** A run of the program: the scheduler's choices, no interrupts. *)
Definition run (ts : list tid) : list state := exec (Run <$> ts) init.

(** All threads have ended. *)
Definition finished (s : state) : bool :=
  bool_decide (prod s = P_done ∧ cons s = C_done ∧ main s = M_done).

(** The lines of a complete hand-over of 0 to 4. *)
Definition expected_out : list string :=
  ["Put: 0"; "Got: 0"; "Put: 1"; "Got: 1"; "Put: 2"; "Got: 2";
   "Put: 3"; "Got: 3"; "Put: 4"; "Got: 4"]%string.

(** The successors of a state under the scheduler's choices. *)
Definition successors (s : state) : list state :=
  [Main; ProducerT; ConsumerT] ≫= (λ t, step t s).

(** Depth-first search of the states a run can reach. *)
Fixpoint explore (fuel : nat) (seen frontier : list state) : list state :=
  match fuel with
  | O => seen
  | S fuel =>
      match frontier with
      | [] => seen
      | s :: frontier =>
          if bool_decide (s ∈ seen) then explore fuel seen frontier
          else explore fuel (s :: seen) (successors s ++ frontier)
      end
  end.

(** Every state a run of the program can be in. *)
Definition reach_set : list state :=
  Eval vm_compute in explore 1000 [] [init].

(** The program points inside [put] and [get] at which the thread has
    the monitor. *)
Definition in_put (pc : ppc) : bool :=
  match pc with
  | P_test _ | P_wait _ | P_caught _ | P_store _ | P_set _ | P_print _
  | P_notify _ | P_exit _ => true
  | _ => false
  end.

Definition in_get (pc : cpc) : bool :=
  match pc with
  | C_test | C_wait | C_caught | C_print | C_clear | C_notify
  | C_return => true
  | _ => false
  end.

(** What is left to do, counted in steps from above: sixteen per round
    still to come, plus the distance to the end of the current round. *)
Definition rank_prod (pc : ppc) : nat :=
  match pc with
  | P_new => 94
  | P_loop i => Z.to_nat (5 - i) * 16 + 13
  | P_enter i => Z.to_nat (5 - i) * 16 + 12
  | P_test i => Z.to_nat (5 - i) * 16 + 11
  | P_wait i => Z.to_nat (5 - i) * 16 + 10
  | P_waiting i => Z.to_nat (5 - i) * 16 + 9
  | P_wake i _ => Z.to_nat (5 - i) * 16 + 8
  | P_caught i => Z.to_nat (5 - i) * 16 + 7
  | P_store i => Z.to_nat (5 - i) * 16 + 6
  | P_set i => Z.to_nat (5 - i) * 16 + 5
  | P_print i => Z.to_nat (5 - i) * 16 + 4
  | P_notify i => Z.to_nat (5 - i) * 16 + 3
  | P_exit i => Z.to_nat (5 - i) * 16 + 2
  | P_done => 0
  end%nat.

Definition rank_cons (pc : cpc) (gets : nat) : nat :=
  match pc with
  | C_new => 94
  | C_check _ => (5 - gets) * 16 + 13
  | C_enter => (5 - gets) * 16 + 12
  | C_test => (5 - gets) * 16 + 11
  | C_wait => (5 - gets) * 16 + 10
  | C_waiting => (5 - gets) * 16 + 9
  | C_wake _ => (5 - gets) * 16 + 8
  | C_caught => (5 - gets) * 16 + 7
  | C_print => (5 - gets) * 16 + 6
  | C_clear => (5 - gets) * 16 + 5
  | C_notify => (5 - gets) * 16 + 4
  | C_return => (5 - gets) * 16 + 3
  | C_done => 0
  end%nat.

Definition rank_main (pc : mpc) : nat :=
  match pc with
  | M_producer => 2
  | M_consumer => 1
  | M_done => 0
  end%nat.

Definition rank (s : state) : nat :=
  (rank_prod (prod s) + rank_cons (cons s) (length (returned s))
   + rank_main (main s))%nat.

(** The state in which the program ends. *)
Definition final : state :=
  State 4 false None P_done C_done M_done false false expected_out
        [0; 1; 2; 3; 4].

(** A schedule without waiting: [main] starts both threads, then each
    [put] runs to its end and is followed by a whole [get]. *)
Definition alternating : list tid :=
  [Main; Main]
  ++ (replicate 5 () ≫= λ _, replicate 8 ProducerT ++ replicate 7 ConsumerT)
  ++ [ProducerT].

(** The owner of the monitor as the program points tell it. *)
Definition holder (s : state) : option tid :=
  if in_put (prod s) then Some ProducerT
  else if in_get (cons s) then Some ConsumerT
  else None.
End Threading.

(** * Lemmas *)

(** ** Stores into a JavaScript array *)

Section JsArrayFacts.
Context {A : Type}.
Implicit Types (a : list (option A)) (v : A).

Lemma JsArray_length_set a i v :
  length (JsArray.set a i v) = length a `max` S i.
Proof.
  unfold JsArray.set. case_decide.
  - rewrite length_insert. lia.
  - rewrite !length_app, length_replicate. simpl. lia.
Qed.

Lemma JsArray_get_set_eq a i v : JsArray.get (JsArray.set a i v) i = Some v.
Proof.
  unfold JsArray.get, JsArray.set. case_decide.
  - by rewrite list_lookup_insert_eq.
  - rewrite lookup_app_r by lia.
    rewrite lookup_app_r by (rewrite length_replicate; lia).
    rewrite length_replicate, Nat.sub_diag. done.
Qed.

Lemma JsArray_get_set_ne a i j v :
  i ≠ j → JsArray.get (JsArray.set a i v) j = JsArray.get a j.
Proof.
  intros Hij. unfold JsArray.get, JsArray.set. case_decide.
  - by rewrite list_lookup_insert_ne.
  - destruct (decide (j < length a)) as [Hj|Hj].
    + by rewrite lookup_app_l.
    + rewrite (lookup_ge_None_2 a j) by lia.
      rewrite lookup_app_r by lia.
      destruct (decide (j - length a < i - length a)) as [Hk|Hk].
      * rewrite lookup_app_l by (rewrite length_replicate; lia).
        rewrite lookup_replicate_2; [done | lia].
      * rewrite lookup_ge_None_2; [done|].
        rewrite length_app, length_replicate. simpl. lia.
Qed.

Lemma JsArray_get_ge a i : length a ≤ i → JsArray.get a i = None.
Proof. intros Hi. unfold JsArray.get. by rewrite lookup_ge_None_2. Qed.
End JsArrayFacts.

Section StoreLoop.
Context {A X : Type} (f : X → nat) (v : A).

Lemma store_all_untouched xs (a : list (option A)) b :
  b ∉ f <$> xs → JsArray.get (store_all f v a xs) b = JsArray.get a b.
Proof.
  revert a. induction xs as [|x xs IH]; intros a Hb; [done|].
  rewrite fmap_cons, not_elem_of_cons in Hb. destruct Hb as [Hne Hb].
  simpl. rewrite IH by done. by apply JsArray_get_set_ne.
Qed.

Lemma store_all_written xs (a : list (option A)) b :
  b ∈ f <$> xs → JsArray.get (store_all f v a xs) b = Some v.
Proof.
  revert a. induction xs as [|x xs IH]; intros a Hb.
  - by apply elem_of_nil in Hb.
  - simpl. destruct (decide (b ∈ f <$> xs)) as [Hin|Hout].
    + by apply IH.
    + rewrite store_all_untouched by done.
      rewrite fmap_cons, elem_of_cons in Hb.
      destruct Hb as [->|Hb]; [apply JsArray_get_set_eq | done].
Qed.

Lemma store_all_length xs (a : list (option A)) :
  Forall (λ x, f x < length a) xs → length (store_all f v a xs) = length a.
Proof.
  revert a. induction xs as [|x xs IH]; intros a Hall; [done|].
  inversion_clear Hall as [|? ? Hx Hall']. simpl.
  assert (length (JsArray.set a (f x) v) = length a) as Hlen
    by (rewrite JsArray_length_set; lia).
  rewrite IH; [done|]. by rewrite Hlen.
Qed.
End StoreLoop.

(** ** The initial table and [assignOpcodeLayout] *)

Lemma olt_init_eq : olt_init = store_all id OPCODE_ONLY olt_new (seq 0 0xff).
Proof. reflexivity. Qed.

Lemma assignOpcodeLayout_eq l ops olt :
  assignOpcodeLayout l ops olt = store_all OpCode.value l olt ops.
Proof. reflexivity. Qed.

Lemma olt_new_length : length olt_new = 0xff.
Proof. apply length_replicate. Qed.

Lemma olt_init_length : length olt_init = 0xff.
Proof.
  rewrite olt_init_eq, store_all_length; [apply olt_new_length|].
  apply Forall_forall. intros i Hi%elem_of_seq.
  rewrite olt_new_length. simpl. lia.
Qed.

Lemma olt_init_get b : b < 0xff → JsArray.get olt_init b = Some OPCODE_ONLY.
Proof.
  intros Hb. rewrite olt_init_eq. apply store_all_written.
  rewrite list_fmap_id. apply elem_of_seq. lia.
Qed.

Lemma olt_init_get_ge b : 0xff ≤ b → JsArray.get olt_init b = None.
Proof. intros Hb. apply JsArray_get_ge. by rewrite olt_init_length. Qed.

(** ** Lemmas on sequences of [assignOpcodeLayout] calls *)

Lemma assigned_values_cons call calls :
  assigned_values (call :: calls)
  = (OpCode.value <$> call.2) ++ assigned_values calls.
Proof. reflexivity. Qed.

Lemma run_assignments_untouched calls olt b :
  b ∉ assigned_values calls →
  JsArray.get (run_assignments calls olt) b = JsArray.get olt b.
Proof.
  revert olt. induction calls as [|call calls IH]; intros olt Hb; [done|].
  rewrite assigned_values_cons, not_elem_of_app in Hb.
  destruct Hb as [Hhd Htl]. simpl. rewrite IH by done.
  rewrite assignOpcodeLayout_eq. by apply store_all_untouched.
Qed.

Lemma run_assignments_written calls olt i l ops b :
  NoDup (assigned_values calls) →
  calls !! i = Some (l, ops) →
  b ∈ OpCode.value <$> ops →
  JsArray.get (run_assignments calls olt) b = Some l.
Proof.
  revert olt i. induction calls as [|call calls IH]; intros olt i Hnd Hi Hb.
  - by rewrite lookup_nil in Hi.
  - rewrite assigned_values_cons in Hnd.
    apply NoDup_app in Hnd as (_ & Hdisj & Hnd).
    destruct i as [|i]; simpl in *.
    + injection Hi as ->.
      rewrite run_assignments_untouched by (apply Hdisj; exact Hb).
      rewrite assignOpcodeLayout_eq. by apply store_all_written.
    + by apply (IH _ i).
Qed.

Lemma run_assignments_length calls olt :
  Forall (λ v, v < length olt) (assigned_values calls) →
  length (run_assignments calls olt) = length olt.
Proof.
  revert olt. induction calls as [|call calls IH]; intros olt Hall; [done|].
  rewrite assigned_values_cons in Hall.
  apply Forall_app in Hall as [Hhd Htl]. simpl.
  assert (length (assignOpcodeLayout call.1 call.2 olt) = length olt) as Hlen.
  { rewrite assignOpcodeLayout_eq. apply store_all_length.
    by apply Forall_fmap in Hhd. }
  rewrite IH; [done|]. by rewrite Hlen.
Qed.

Lemma run_assignments_take_length n calls olt :
  Forall (λ v, v < length olt) (assigned_values calls) →
  length (run_assignments (take n calls) olt) = length olt.
Proof.
  intros Hall. apply run_assignments_length.
  apply Forall_forall. intros v Hv.
  apply (proj1 (Forall_forall _ _) Hall).
  unfold assigned_values in *.
  apply list_elem_of_bind in Hv as (call & Hv & Hcall).
  apply list_elem_of_bind. exists call. split; [done|].
  apply elem_of_take in Hcall as (i & Hi & _).
  by eapply list_elem_of_lookup_2.
Qed.

(** ** Facts about the concrete table, by evaluation *)

Lemma assignments_NoDup : NoDup (assigned_values assignments).
Proof. apply (bool_decide_unpack _). vm_compute. reflexivity. Qed.

Lemma assignments_in_range :
  Forall (λ v, v < 0xff) (assigned_values assignments).
Proof. apply (bool_decide_unpack _). vm_compute. reflexivity. Qed.

Lemma OpCode_of_value_value o : OpCode.of_value (OpCode.value o) = Some o.
Proof. destruct o; vm_compute; reflexivity. Qed.

Lemma OpCode_value_inj a b : OpCode.value a = OpCode.value b → a = b.
Proof.
  intros Hab. apply (f_equal OpCode.of_value) in Hab.
  rewrite !OpCode_of_value_value in Hab. congruence.
Qed.

Lemma OpCode_members_complete o : o ∈ OpCode.members.
Proof.
  pose proof (OpCode_of_value_value o) as H. unfold OpCode.of_value in H.
  apply find_some in H as [H _]. by apply list_elem_of_In.
Qed.

Lemma OpCode_value_le o : OpCode.value o ≤ 0xf2.
Proof.
  assert (Forall (λ o, OpCode.value o ≤ 0xf2) OpCode.members) as Hall
    by (apply (bool_decide_unpack _); vm_compute; reflexivity).
  exact (proj1 (Forall_forall _ _) Hall o (OpCode_members_complete o)).
Qed.

Lemma assigned_values_lookup calls i l ops o :
  calls !! i = Some (l, ops) → o ∈ ops →
  OpCode.value o ∈ assigned_values calls.
Proof.
  intros Hi Ho. apply list_elem_of_bind. exists (l, ops). split.
  - by apply list_elem_of_fmap_2.
  - by eapply list_elem_of_lookup_2.
Qed.

(** With no value named twice, a value is named by one call only. *)
Lemma assigned_values_owner calls i j ci cj v :
  NoDup (assigned_values calls) →
  calls !! i = Some ci → calls !! j = Some cj →
  v ∈ OpCode.value <$> ci.2 → v ∈ OpCode.value <$> cj.2 →
  i = j.
Proof.
  revert i j. induction calls as [|call calls IH]; intros i j Hnd Hi Hj Hvi Hvj.
  - by rewrite lookup_nil in Hi.
  - rewrite assigned_values_cons in Hnd.
    apply NoDup_app in Hnd as (_ & Hdisj & Hnd).
    assert (∀ k c, calls !! k = Some c → v ∈ OpCode.value <$> c.2 →
                   v ∈ assigned_values calls) as Hlater.
    { intros k c Hk Hv. apply list_elem_of_bind. exists c.
      split; [done | by eapply list_elem_of_lookup_2]. }
    destruct i as [|i], j as [|j]; simpl in *.
    + done.
    + injection Hi as ->. exfalso. eapply Hdisj; eauto.
    + injection Hj as ->. exfalso. eapply Hdisj; eauto.
    + f_equal. by apply IH.
Qed.

(** ** The opcode layout table: what [OpcodeLayouts] holds *)

(** Every index below [0xff] holds a layout. *)
Lemma layoutOf_defined_below_0xff b : b < 0xff → is_Some (layoutOf b).
Proof.
  intros Hb. unfold layoutOf, OpcodeLayouts.
  destruct (decide (b ∈ assigned_values assignments)) as [Hin|Hout].
  - apply list_elem_of_bind in Hin as ([l ops] & Hv & Hcall).
    apply list_elem_of_lookup_1 in Hcall as [i Hi].
    exists l. eapply run_assignments_written; eauto using assignments_NoDup.
  - rewrite run_assignments_untouched by done.
    rewrite olt_init_get by done. by eexists.
Qed.

(** An index below [0xff] that no call names keeps the default. *)
Lemma layoutOf_unassigned b :
  b < 0xff → b ∉ assigned_values assignments → layoutOf b = Some OPCODE_ONLY.
Proof.
  intros Hb Hout. unfold layoutOf, OpcodeLayouts.
  rewrite run_assignments_untouched by done. by apply olt_init_get.
Qed.

(** No call of [assignOpcodeLayout] extends the table. *)
Lemma OpcodeLayouts_length : length OpcodeLayouts = 0xff.
Proof.
  unfold OpcodeLayouts. rewrite run_assignments_length.
  - apply olt_init_length.
  - rewrite olt_init_length. apply assignments_in_range.
Qed.

(** C1: the table is not total over the 256 byte values.  [olt] is made
    by [new Array(0xff)] and filled for [i < 0xff], so it has 255 slots,
    [0] to [0xfe]; no call names [0xff], and [OpcodeLayouts[0xff]] is
    [undefined]. *)
Theorem layoutOf_0xff_undefined : layoutOf 0xff = None.
Proof.
  unfold layoutOf. apply JsArray_get_ge.
  by rewrite OpcodeLayouts_length.
Qed.

(** C3: byte [0xff] is named by no [assignOpcodeLayout] call, yet the
    table does not map it to [OPCODE_ONLY]: the slot does not exist. *)
Theorem layoutOf_0xff_unassigned_without_default :
  (0xff ∉ assigned_values assignments) ∧ layoutOf 0xff ≠ Some OPCODE_ONLY.
Proof.
  split.
  - intros Hin.
    pose proof (proj1 (Forall_forall _ _) assignments_in_range _ Hin) as Hlt.
    simpl in Hlt. lia.
  - unfold layoutOf. rewrite JsArray_get_ge; [done|].
    by rewrite OpcodeLayouts_length.
Qed.

(** An opcode listed in a call has that call's layout in the table. *)
Lemma layoutOf_listed i l ops o :
  assignments !! i = Some (l, ops) → o ∈ ops →
  layoutOf (OpCode.value o) = Some l.
Proof.
  intros Hi Ho. unfold layoutOf, OpcodeLayouts.
  eapply run_assignments_written; eauto using assignments_NoDup.
  by apply list_elem_of_fmap_2.
Qed.

(** C4: an opcode listed in the [i]-th call of [assignOpcodeLayout] has
    exactly that call's layout in the table, and any call that lists an
    opcode of the same value is that same call. *)
Theorem layoutOf_assigned i l ops o :
  assignments !! i = Some (l, ops) → o ∈ ops →
  layoutOf (OpCode.value o) = Some l
  ∧ (∀ j l' ops' o',
       assignments !! j = Some (l', ops') → o' ∈ ops' →
       OpCode.value o' = OpCode.value o → j = i).
Proof.
  intros Hi Ho. split.
  - by eapply layoutOf_listed.
  - intros j l' ops' o' Hj Ho' Hv.
    apply (assigned_values_owner assignments j i (l', ops') (l, ops)
             (OpCode.value o)); [apply assignments_NoDup | done | done | | ].
    + rewrite <- Hv. by apply list_elem_of_fmap_2.
    + by apply list_elem_of_fmap_2.
Qed.

Lemma layoutOf_assigned_witness :
  layoutOf (OpCode.value OpCode.IFNULL) = Some INT16_VALUE
  ∧ (∀ j l' ops' o',
       assignments !! j = Some (l', ops') → o' ∈ ops' →
       OpCode.value o' = OpCode.value OpCode.IFNULL → j = 5).
Proof.
  eapply (layoutOf_assigned 5 INT16_VALUE _ OpCode.IFNULL).
  - reflexivity.
  - repeat first [apply list_elem_of_here | apply list_elem_of_further].
Defined.

(** ** [assignOpcodeLayout] has no guard *)

Lemma run_assignments_app calls1 calls2 olt :
  run_assignments (calls1 ++ calls2) olt
  = run_assignments calls2 (run_assignments calls1 olt).
Proof. apply foldl_app. Qed.

(** C5, as stated, fails: starting from the initial table, [ALOAD] is
    first given [UINT8_VALUE] (not the default) and then [INT8_VALUE] by a
    second call; the second call completes and the table holds
    [INT8_VALUE] for [ALOAD]: the first layout is silently replaced. *)
Lemma assignOpcodeLayout_twice_overwrites :
  let olt1 := assignOpcodeLayout UINT8_VALUE [OpCode.ALOAD] olt_init in
  let olt2 := assignOpcodeLayout INT8_VALUE [OpCode.ALOAD] olt1 in
  JsArray.get olt1 (OpCode.value OpCode.ALOAD) = Some UINT8_VALUE
  ∧ UINT8_VALUE ≠ OPCODE_ONLY
  ∧ olt2 = run_assignments
             [(UINT8_VALUE, [OpCode.ALOAD]); (INT8_VALUE, [OpCode.ALOAD])]
             olt_init
  ∧ JsArray.get olt2 (OpCode.value OpCode.ALOAD) = Some INT8_VALUE.
Proof.
  cbv zeta. split; [|split; [|split]].
  - rewrite assignOpcodeLayout_eq. apply store_all_written, list_elem_of_here.
  - discriminate.
  - reflexivity.
  - rewrite assignOpcodeLayout_eq. apply store_all_written, list_elem_of_here.
Qed.

(** C5, amended: construction has no failure path and no duplicate check;
    whatever the table held before and whatever earlier calls assigned,
    the last call that lists an opcode decides its layout. *)
Theorem run_assignments_last_call_wins calls1 l ops calls2 olt o :
  o ∈ ops →
  OpCode.value o ∉ assigned_values calls2 →
  JsArray.get (run_assignments (calls1 ++ (l, ops) :: calls2) olt)
              (OpCode.value o) = Some l.
Proof.
  intros Ho Hlater. rewrite run_assignments_app. simpl.
  change (foldl _ ?t calls2) with (run_assignments calls2 t).
  rewrite run_assignments_untouched by done.
  rewrite assignOpcodeLayout_eq. apply store_all_written.
  by apply list_elem_of_fmap_2.
Qed.

Lemma run_assignments_last_call_wins_witness :
  JsArray.get
    (run_assignments
       ([(UINT8_VALUE, [OpCode.ALOAD])] ++ (INT8_VALUE, [OpCode.ALOAD]) :: [])
       olt_init)
    (OpCode.value OpCode.ALOAD) = Some INT8_VALUE.
Proof.
  apply (run_assignments_last_call_wins
           [(UINT8_VALUE, [OpCode.ALOAD])] INT8_VALUE [OpCode.ALOAD] []
           olt_init OpCode.ALOAD).
  - apply list_elem_of_here.
  - apply not_elem_of_nil.
Defined.

(** ** The 'fast' opcodes *)

Lemma fast_opcodes_spec o : o ∈ fast_opcodes ↔ is_Some (fast_source o).
Proof.
  unfold fast_opcodes. rewrite list_elem_of_filter.
  split; [by intros [? _] | intros Hs; split; [done|]].
  apply OpCode_members_complete.
Qed.

(** Apart from [MULTIANEWARRAY_FAST], every 'fast' opcode has the layout
    of the opcode it is named after. *)
Lemma fast_layout_agrees o src :
  fast_source o = Some src → o ≠ OpCode.MULTIANEWARRAY_FAST →
  layoutOf (OpCode.value o) = layoutOf (OpCode.value src).
Proof.
  intros Hsrc Hne.
  destruct o; simpl in Hsrc; try discriminate Hsrc;
    injection Hsrc as <-; try (vm_compute; reflexivity).
  by destruct Hne.
Qed.

(** C2: [MULTIANEWARRAY_FAST] is listed in the [CONSTANT_POOL] call while
    [MULTIANEWARRAY], the opcode it is named after, is listed in the
    [CONSTANT_POOL_AND_UINT8_VALUE] call (next to [INVOKEINTERFACE] and
    [INVOKEINTERFACE_FAST]): the two layouts differ. *)
Theorem MULTIANEWARRAY_FAST_layout_differs :
  fast_source OpCode.MULTIANEWARRAY_FAST = Some OpCode.MULTIANEWARRAY
  ∧ layoutOf (OpCode.value OpCode.MULTIANEWARRAY_FAST) = Some CONSTANT_POOL
  ∧ layoutOf (OpCode.value OpCode.MULTIANEWARRAY)
    = Some CONSTANT_POOL_AND_UINT8_VALUE
  ∧ layoutOf (OpCode.value OpCode.INVOKEINTERFACE_FAST)
    = layoutOf (OpCode.value OpCode.INVOKEINTERFACE).
Proof.
  split; [reflexivity|]. split; [|split].
  - apply (layoutOf_listed 2 CONSTANT_POOL _ OpCode.MULTIANEWARRAY_FAST
             eq_refl).
    repeat first [apply list_elem_of_here | apply list_elem_of_further].
  - apply (layoutOf_listed 3 CONSTANT_POOL_AND_UINT8_VALUE _
             OpCode.MULTIANEWARRAY eq_refl).
    repeat first [apply list_elem_of_here | apply list_elem_of_further].
  - apply fast_layout_agrees; [reflexivity | discriminate].
Qed.

(** ** Opcode values and the bounds of the table *)

(** C10: the members of [OpCode] have pairwise distinct values between
    [0x00] and [0xf2]; so every opcode indexes a slot that the
    initialisation loop filled, and at no stage of the construction does
    a call of [assignOpcodeLayout] write past the end of the array: its
    length stays that of [new Array(0xff)]. *)
Theorem OpCode_values_distinct_and_in_bounds :
  (∀ a b : OpCode.t, OpCode.value a = OpCode.value b → a = b)
  ∧ (∀ o : OpCode.t, 0x00 ≤ OpCode.value o ≤ 0xf2)
  ∧ (∀ o : OpCode.t,
       OpCode.value o < length olt_init
       ∧ JsArray.get olt_init (OpCode.value o) = Some OPCODE_ONLY)
  ∧ (∀ n : nat,
       length (run_assignments (take n assignments) olt_init)
       = length olt_new).
Proof.
  split; [exact OpCode_value_inj|].
  split; [intros o; split; [lia | apply OpCode_value_le]|].
  split.
  - intros o. pose proof (OpCode_value_le o) as Hle.
    rewrite olt_init_length. split; [simpl in *; lia|].
    apply olt_init_get. simpl in *. lia.
  - intros n. rewrite run_assignments_take_length.
    + by rewrite olt_init_length, olt_new_length.
    + rewrite olt_init_length. apply assignments_in_range.
Qed.

(** ** Numeric constants *)

(** C6, as stated, fails: the constant is exactly the two's-complement
    reading of the negative-infinity pattern [0xFF800000]. *)
Lemma FLOAT_NEG_INFINITY_AS_INT_not_distinct :
  ¬ (Constants.FLOAT_NEG_INFINITY_AS_INT ≠ Int32.to_int32 0xFF800000).
Proof. intros Hne. apply Hne. vm_compute. reflexivity. Qed.

(** C6, amended: [FLOAT_NEG_INFINITY_AS_INT] is the decimal integer
    [-8388608]; it equals the 32-bit two's-complement reading of
    [0xFF800000] and differs from that pattern read as an unsigned
    number, whose 32 bits it shares. *)
Theorem FLOAT_NEG_INFINITY_AS_INT_twos_complement :
  Constants.FLOAT_NEG_INFINITY_AS_INT = (-8388608)%Z
  ∧ Constants.FLOAT_NEG_INFINITY_AS_INT = Int32.to_int32 0xFF800000
  ∧ Constants.FLOAT_NEG_INFINITY_AS_INT ≠ 0xFF800000%Z
  ∧ Int32.to_uint32 Constants.FLOAT_NEG_INFINITY_AS_INT = 0xFF800000%Z.
Proof.
  split; [reflexivity|]. split; [vm_compute; reflexivity|].
  split; [discriminate | vm_compute; reflexivity].
Qed.

(** C7: [FLOAT_POS_INFINITY_AS_INT] is [0x7F800000] (sign 0, exponent
    field all ones, fraction 0) and [FLOAT_NaN_AS_INT] is [0x7FC00000]
    (the same with the top fraction bit set: a quiet NaN). *)
Theorem float_bit_pattern_constants :
  Constants.FLOAT_POS_INFINITY_AS_INT = 0x7F800000%Z
  ∧ Constants.FLOAT_NaN_AS_INT = 0x7FC00000%Z
  ∧ Constants.FLOAT_POS_INFINITY_AS_INT = (255 * 2 ^ 23)%Z
  ∧ Constants.FLOAT_NaN_AS_INT = (255 * 2 ^ 23 + 2 ^ 22)%Z.
Proof. repeat split; vm_compute; reflexivity. Qed.

Lemma INT_bounds :
  Constants.INT_MAX = 2147483647%Z ∧ Constants.INT_MIN = (- 2 ^ 31)%Z.
Proof. split; vm_compute; reflexivity. Qed.

(** ** Class states *)

Section ClassLifecycleFacts.
Import ClassState ClassLifecycle.
Implicit Types (reg : gmap string ClassState.t) (c : string).
Implicit Types (s : ClassState.t) (l : list ClassState.t).

Lemma advance_state_step cur target s :
  advance_state cur target = Some s → s = cur ∨ next cur = Some s.
Proof.
  unfold advance_state. intros H.
  destruct (decide (target = cur)); [left; congruence|].
  destruct (decide (next cur = Some target)); [right; congruence|].
  discriminate.
Qed.

(** A request on any class moves class [c] by at most one step. *)
Lemma request_step reg r c :
  currentState (request reg r) c = currentState reg c
  ∨ next (currentState reg c) = Some (currentState (request reg r) c).
Proof.
  unfold request, advance.
  destruct (advance_state (currentState reg r.1) r.2) as [s|] eqn:Hadv;
    simpl; [|by left].
  destruct (decide (r.1 = c)) as [<-|Hne].
  - assert (currentState (<[r.1:=s]> reg) r.1 = s) as ->
      by (unfold currentState; by rewrite lookup_insert_eq).
    by apply advance_state_step in Hadv.
  - left. unfold currentState. by rewrite lookup_insert_ne.
Qed.

Lemma observe_stepwise reqs reg c :
  stepwise (currentState reg c) (observe reg reqs c).
Proof.
  revert reg. induction reqs as [|r reqs IH]; intros reg; simpl; [done|].
  split; [apply request_step | apply IH].
Qed.

Lemma next_value s s' : next s = Some s' → value s' = S (value s).
Proof. destruct s; intros [= <-]; reflexivity. Qed.

Lemma stepwise_ge l s : stepwise s l → Forall (λ s', value s ≤ value s') l.
Proof.
  revert s. induction l as [|s' l IH]; intros s Hl; [constructor|].
  destruct Hl as [Hstep Hl]. specialize (IH _ Hl).
  assert (value s ≤ value s') as Hle.
  { destruct Hstep as [->|Hn%next_value]; lia. }
  constructor; [done|].
  eapply Forall_impl; [exact IH|]. simpl. intros; lia.
Qed.

Lemma stepwise_sorted l s :
  stepwise s l → StronglySorted (λ a b, value a ≤ value b) (s :: l).
Proof.
  revert s. induction l as [|s' l IH]; intros s Hl.
  - repeat constructor.
  - constructor; [apply IH, Hl | by apply stepwise_ge].
Qed.

Lemma lifecycle_from s s' :
  next s = Some s' →
  drop (value s) lifecycle = s :: drop (value s') lifecycle.
Proof. destruct s; intros [= <-]; reflexivity. Qed.

Lemma collapse_singleton s : [s] `sublist_of` drop (value s) lifecycle.
Proof. destruct s; simpl; repeat constructor. Qed.

Lemma stepwise_collapse l s :
  stepwise s l → collapse (s :: l) `sublist_of` drop (value s) lifecycle.
Proof.
  revert s. induction l as [|s' l IH]; intros s Hl.
  - apply collapse_singleton.
  - destruct Hl as [Hstep Hl]. specialize (IH _ Hl).
    change (collapse (s :: s' :: l))
      with (if decide (s = s') then collapse (s' :: l)
            else s :: collapse (s' :: l)).
    destruct Hstep as [->|Hn].
    + by rewrite decide_True.
    + rewrite decide_False by (intros ->; destruct s'; discriminate).
      rewrite (lifecycle_from _ _ Hn). by constructor.
Qed.

(** C9: for every class [c] and every run of requests, the observed
    states of [c] never regress (each observation is at most every later
    one in the numbering of [ClassState]); with repeated observations of
    an unchanged state counted once they form a subsequence of
    NOT_LOADED, LOADED, RESOLVED, INITIALIZED; and [ClassState] numbers
    these four states in strictly increasing order. *)
Theorem ClassState_monotone reqs c :
  StronglySorted (λ a b, value a ≤ value b) (observed reqs c)
  ∧ collapse (observed reqs c) `sublist_of` lifecycle
  ∧ value NOT_LOADED < value LOADED
  ∧ value LOADED < value RESOLVED
  ∧ value RESOLVED < value INITIALIZED.
Proof.
  pose proof (observe_stepwise reqs ∅ c) as Hstep.
  split; [by apply stepwise_sorted|]. split.
  - etrans; [by apply stepwise_collapse | apply sublist_drop].
  - simpl. lia.
Qed.
End ClassLifecycleFacts.

(** ** Float/int reinterpretation *)

Section FloatBitsFacts.
Import FloatBits.
Local Open Scope Z_scope.

Ltac pow_numerals :=
  change (2 ^ 32) with 4294967296 in *;
  change (2 ^ 31) with 2147483648 in *;
  change (2 ^ 23) with 8388608 in *;
  change (2 ^ 8) with 256 in *.

(** [digits2_pos m] is the bit length of [m]. *)
Lemma digits2_pos_bounds m :
  2 ^ (Z.pos (digits2_pos m) - 1) ≤ Z.pos m < 2 ^ Z.pos (digits2_pos m).
Proof.
  induction m as [m IH|m IH|]; simpl digits2_pos.
  - rewrite Pos2Z.inj_succ, Z.pow_succ_r by lia.
    replace (Z.succ (Z.pos (digits2_pos m)) - 1)
      with (Z.succ (Z.pos (digits2_pos m) - 1)) by lia.
    rewrite Z.pow_succ_r by lia. lia.
  - rewrite Pos2Z.inj_succ, Z.pow_succ_r by lia.
    replace (Z.succ (Z.pos (digits2_pos m)) - 1)
      with (Z.succ (Z.pos (digits2_pos m) - 1)) by lia.
    rewrite Z.pow_succ_r by lia. lia.
  - simpl. lia.
Qed.

(** The finite single-precision values are the normal ones (24-bit
    mantissa) and the subnormal ones (shorter mantissa, least exponent). *)
Lemma bounded_float32 m e :
  bounded prec emax m e = true →
  (2 ^ 23 ≤ Z.pos m < 2 ^ 24 ∧ -149 ≤ e ≤ 104)
  ∨ (Z.pos m < 2 ^ 23 ∧ e = -149).
Proof.
  unfold bounded, canonical_mantissa, fexp, SpecFloat.emin, prec, emax.
  intros [Hcanon Hle]%andb_prop.
  apply Z.eqb_eq in Hcanon. apply Z.leb_le in Hle.
  pose proof (digits2_pos_bounds m) as [Hlo Hhi].
  set (d := Z.pos (digits2_pos m)) in *.
  assert (0 < d) as Hd by (subst d; lia).
  destruct (Z.lt_trichotomy d 24) as [Hlt|[Heq|Hgt]].
  - right. split; [|lia].
    eapply Z.lt_le_trans; [exact Hhi|].
    apply Z.pow_le_mono_r; lia.
  - left. rewrite Heq in Hlo, Hhi. simpl in Hlo. split; [|lia].
    split; [exact Hlo | exact Hhi].
  - lia.
Qed.

Lemma to_uint32_to_int32 w :
  0 ≤ w < 2 ^ 32 → Int32.to_uint32 (Int32.to_int32 w) = w.
Proof.
  intros Hw. unfold Int32.to_uint32, Int32.to_int32. pow_numerals.
  rewrite (Z.mod_small w) by lia.
  destruct (w <? 2147483648) eqn:Hlt.
  - apply Z.mod_small. lia.
  - apply Z.ltb_ge in Hlt. Z.to_euclidean_division_equations. lia.
Qed.

Lemma join_bits_range s E F :
  0 ≤ E < 256 → 0 ≤ F < 2 ^ 23 → 0 ≤ join_bits s E F < 2 ^ 32.
Proof. intros HE HF. unfold join_bits. pow_numerals. destruct s; lia. Qed.

(** Reading the three fields back from a word. *)
Lemma join_bits_fields s E F :
  0 ≤ E < 256 → 0 ≤ F < 2 ^ 23 →
  (2 ^ 31 <=? join_bits s E F) = s
  ∧ (join_bits s E F / 2 ^ 23) mod 2 ^ 8 = E
  ∧ join_bits s E F mod 2 ^ 23 = F.
Proof.
  intros HE HF. unfold join_bits. pow_numerals. split; [|split].
  - destruct s; [apply Z.leb_le | apply Z.leb_gt]; lia.
  - destruct s; Z.to_euclidean_division_equations; lia.
  - destruct s; Z.to_euclidean_division_equations; lia.
Qed.

(** [intBitsToFloat] on a word given by its fields. *)
Lemma intBitsToFloat_join_bits s E F :
  0 ≤ E < 256 → 0 ≤ F < 2 ^ 23 →
  intBitsToFloat (Int32.to_int32 (join_bits s E F))
  = if E =? 0 then
      match F with
      | Z.pos p => S754_finite s p (-149)
      | _ => S754_zero s
      end
    else if E =? 255 then
      if F =? 0 then S754_infinity s else S754_nan
    else
      match F + 2 ^ 23 with
      | Z.pos p => S754_finite s p (E - 150)
      | _ => S754_nan
      end.
Proof.
  intros HE HF. unfold intBitsToFloat.
  rewrite to_uint32_to_int32 by (by apply join_bits_range).
  destruct (join_bits_fields s E F HE HF) as (-> & -> & ->).
  reflexivity.
Qed.

(** Every valid single-precision value survives the round trip. *)
Lemma round_trip_float32 x : is_float32 x = true → round_trip x = x.
Proof.
  intros Hvalid. unfold round_trip.
  destruct x as [s|s| |s m e].
  - destruct s; vm_compute; reflexivity.
  - destruct s; vm_compute; reflexivity.
  - vm_compute; reflexivity.
  - simpl in Hvalid. unfold floatBitsToInt.
    destruct (bounded_float32 m e Hvalid) as [[Hm He]|[Hm ->]].
    + change (2 ^ 24) with 16777216 in Hm. pow_numerals.
      rewrite (proj2 (Z.leb_le _ _)) by lia.
      change 8388608 with (2 ^ 23). rewrite intBitsToFloat_join_bits;
        pow_numerals; [|lia|lia].
      rewrite (proj2 (Z.eqb_neq _ _)) by lia.
      rewrite (proj2 (Z.eqb_neq _ _)) by lia.
      replace (Z.pos m - 8388608 + 8388608) with (Z.pos m) by lia.
      f_equal. lia.
    + pow_numerals. rewrite (proj2 (Z.leb_gt _ _)) by lia.
      rewrite intBitsToFloat_join_bits; pow_numerals; [|lia|lia].
      reflexivity.
Qed.

(** Every NaN bit pattern (exponent field all ones, fraction not zero)
    comes back as the canonical one. *)
Lemma floatBitsToInt_nan_pattern s F :
  0 < F < 2 ^ 23 →
  floatBitsToInt (intBitsToFloat (Int32.to_int32 (join_bits s 255 F)))
  = Constants.FLOAT_NaN_AS_INT.
Proof.
  intros HF. rewrite intBitsToFloat_join_bits by (pow_numerals; lia).
  simpl (255 =? 0). simpl (255 =? 255).
  by rewrite (proj2 (Z.eqb_neq _ _)) by lia.
Qed.

(** C8: for a single-precision value [x], [intBitsToFloat (floatBitsToInt
    x)] is [x] when [x] is finite (not NaN, not an infinity); when [x] is
    NaN, doing the round trip twice gives what doing it once gives. *)
Theorem round_trip_law x :
  is_float32 x = true →
  (is_finite x = true → round_trip x = x)
  ∧ (x = S754_nan → round_trip (round_trip x) = round_trip x).
Proof.
  intros Hvalid. split.
  - intros _. by apply round_trip_float32.
  - intros ->. vm_compute. reflexivity.
Qed.

Lemma round_trip_law_witness :
  round_trip (S754_finite true 12582912 (-22))
  = S754_finite true 12582912 (-22)
  ∧ round_trip (round_trip S754_nan) = round_trip S754_nan.
Proof.
  split.
  - exact (proj1 (round_trip_law (S754_finite true 12582912 (-22)) eq_refl)
             eq_refl).
  - exact (proj2 (round_trip_law S754_nan eq_refl) eq_refl).
Defined.

(** The bit length of [m] is the only [d] with [2^(d-1) ≤ m < 2^d]. *)
Lemma digits2_pos_unique m d :
  2 ^ (d - 1) ≤ Z.pos m < 2 ^ d → Z.pos (digits2_pos m) = d.
Proof.
  intros [Hlo Hhi]. pose proof (digits2_pos_bounds m) as [Hlo' Hhi'].
  set (d' := Z.pos (digits2_pos m)) in *.
  assert (0 < d') as Hd' by (subst d'; lia).
  assert (0 < d) as Hd.
  { destruct (Z.lt_trichotomy d 0) as [Hneg|[->|Hpos]]; [|simpl in Hhi; lia|done].
    rewrite Z.pow_neg_r in Hhi by lia. lia. }
  assert (d' - 1 < d) as H1.
  { apply (Z.pow_lt_mono_r_iff 2); [lia | lia | lia]. }
  assert (d - 1 < d') as H2.
  { apply (Z.pow_lt_mono_r_iff 2); [lia | lia | lia]. }
  lia.
Qed.

(** [intBitsToFloat] is total: every input yields a single-precision
    value. *)
Lemma intBitsToFloat_float32 i : is_float32 (intBitsToFloat i) = true.
Proof.
  unfold intBitsToFloat, Int32.to_uint32.
  set (w := i mod 2 ^ 32).
  assert (0 ≤ w < 2 ^ 32) as Hw by (subst w; apply Z.mod_pos_bound; lia).
  set (E := (w / 2 ^ 23) mod 2 ^ 8).
  assert (0 ≤ E < 256) as HE by (subst E; apply Z.mod_pos_bound; lia).
  set (F := w mod 2 ^ 23).
  assert (0 ≤ F < 2 ^ 23) as HF by (subst F; apply Z.mod_pos_bound; lia).
  set (s := 2 ^ 31 <=? w).
  clearbody s E F. clear w Hw.
  destruct (E =? 0) eqn:HE0; [|destruct (E =? 255) eqn:HE255].
  - destruct F as [|p|p]; [done| |done].
    unfold is_float32, valid_binary, bounded, canonical_mantissa, fexp,
      SpecFloat.emin, prec, emax.
    pose proof (digits2_pos_bounds p) as [Hlo _].
    assert (Z.pos (digits2_pos p) - 1 < 23) as Hd.
    { apply (Z.pow_lt_mono_r_iff 2); lia. }
    apply andb_true_intro. split; [apply Z.eqb_eq | apply Z.leb_le]; lia.
  - by destruct (F =? 0).
  - apply Z.eqb_neq in HE0, HE255.
    destruct (F + 2 ^ 23) as [|p|p] eqn:Hp; [done| |done].
    unfold is_float32, valid_binary, bounded, canonical_mantissa, fexp,
      SpecFloat.emin, prec, emax.
    assert (Z.pos (digits2_pos p) = 24) as ->.
    { apply digits2_pos_unique. change (24 - 1) with 23.
      change (2 ^ 24) with (2 * 2 ^ 23). lia. }
    apply andb_true_intro. split; [apply Z.eqb_eq | apply Z.leb_le]; lia.
Qed.

Lemma to_int32_to_uint32 i :
  - 2 ^ 31 ≤ i < 2 ^ 31 → Int32.to_int32 (Int32.to_uint32 i) = i.
Proof.
  intros Hi. unfold Int32.to_uint32, Int32.to_int32. pow_numerals.
  rewrite Z.mod_mod by lia.
  destruct (i mod 4294967296 <? 2147483648) eqn:Hlt;
    [apply Z.ltb_lt in Hlt | apply Z.ltb_ge in Hlt];
    Z.to_euclidean_division_equations; lia.
Qed.

(** A word is made of its three fields. *)
Lemma join_bits_of_fields w :
  0 ≤ w < 2 ^ 32 →
  join_bits (2 ^ 31 <=? w) ((w / 2 ^ 23) mod 2 ^ 8) (w mod 2 ^ 23) = w.
Proof.
  intros Hw. unfold join_bits. pow_numerals.
  destruct (2147483648 <=? w) eqn:Hs;
    [apply Z.leb_le in Hs | apply Z.leb_gt in Hs];
    Z.to_euclidean_division_equations; lia.
Qed.

(** [floatBitsToInt] undoes [intBitsToFloat] on every [int] that is not
    a NaN pattern. *)
Lemma floatBitsToInt_intBitsToFloat i :
  - 2 ^ 31 ≤ i < 2 ^ 31 →
  intBitsToFloat i ≠ S754_nan →
  floatBitsToInt (intBitsToFloat i) = i.
Proof.
  intros Hi Hnan.
  rewrite <- (to_int32_to_uint32 i Hi) at 2.
  unfold intBitsToFloat in *.
  assert (0 ≤ Int32.to_uint32 i < 2 ^ 32) as Hw
    by (apply Z.mod_pos_bound; lia).
  set (w := Int32.to_uint32 i) in *. clearbody w. clear i Hi.
  assert (Int32.to_int32 w
          = Int32.to_int32
              (join_bits (2 ^ 31 <=? w) ((w / 2 ^ 23) mod 2 ^ 8)
                         (w mod 2 ^ 23))) as ->
    by (by rewrite join_bits_of_fields).
  set (s := 2 ^ 31 <=? w) in *.
  set (E := (w / 2 ^ 23) mod 2 ^ 8) in *.
  assert (0 ≤ E < 256) as HE by (subst E; apply Z.mod_pos_bound; lia).
  set (F := w mod 2 ^ 23) in *.
  assert (0 ≤ F < 2 ^ 23) as HF by (subst F; apply Z.mod_pos_bound; lia).
  clearbody s E F. clear w Hw.
  destruct (E =? 0) eqn:HE0; [|destruct (E =? 255) eqn:HE255].
  - apply Z.eqb_eq in HE0 as ->. destruct F as [|p|p]; [done| |lia].
    unfold floatBitsToInt. by rewrite (proj2 (Z.leb_gt _ _)) by lia.
  - apply Z.eqb_eq in HE255 as ->.
    destruct (F =? 0) eqn:HF0; [|done].
    apply Z.eqb_eq in HF0 as ->. by destruct s.
  - apply Z.eqb_neq in HE0, HE255.
    destruct (F + 2 ^ 23) as [|p|p] eqn:Hp; [done| |done].
    unfold floatBitsToInt. rewrite (proj2 (Z.leb_le _ _)) by lia.
    do 2 f_equal; lia.
Qed.
End FloatBitsFacts.

(** * Further properties of [enums.ts] *)

(** ** [assignOpcodeLayout] and the table *)

(** X1: What one call of [assignOpcodeLayout] does to any table, index by
    index: a listed index gets the layout, every other index keeps what
    it had. *)
Theorem assignOpcodeLayout_get l ops (olt : list (option OpcodeLayoutType.t)) b :
  JsArray.get (assignOpcodeLayout l ops olt) b
  = if decide (b ∈ OpCode.value <$> ops) then Some l else JsArray.get olt b.
Proof.
  rewrite assignOpcodeLayout_eq. case_decide.
  - by apply store_all_written.
  - by apply store_all_untouched.
Qed.

Lemma layoutOf_Some_lt b l : layoutOf b = Some l → b < 0xff.
Proof.
  intros Hl. destruct (decide (b < 0xff)) as [|Hge]; [done|].
  unfold layoutOf in Hl. rewrite JsArray_get_ge in Hl; [done|].
  rewrite OpcodeLayouts_length. lia.
Qed.

Lemma layoutOf_cases b l :
  layoutOf b = Some l →
  if decide (b ∈ assigned_values assignments)
  then ∃ ops, (l, ops) ∈ assignments ∧ b ∈ OpCode.value <$> ops
  else l = OPCODE_ONLY.
Proof.
  intros Hl. pose proof (layoutOf_Some_lt _ _ Hl) as Hb.
  case_decide as Hin.
  - apply list_elem_of_bind in Hin as ([l' ops] & Hv & Hcall).
    apply list_elem_of_lookup_1 in Hcall as [i Hi].
    pose proof (run_assignments_written assignments olt_init i l' ops b
                  assignments_NoDup Hi Hv) as Hl'.
    unfold layoutOf, OpcodeLayouts in Hl. rewrite Hl' in Hl.
    injection Hl as ->. exists ops. split; [|done].
    by eapply list_elem_of_lookup_2.
  - rewrite layoutOf_unassigned in Hl by done. congruence.
Qed.

(** X2: The table is defined exactly on the indices below [0xff]. *)
Theorem layoutOf_defined_iff b : is_Some (layoutOf b) ↔ b < 0xff.
Proof.
  split; [|apply layoutOf_defined_below_0xff].
  intros [l Hl]. by eapply layoutOf_Some_lt.
Qed.

(** X3: The content of the table: an index named by a call holds that call's
    layout, any other index below [0xff] holds [OPCODE_ONLY], and nothing
    else is in the table. *)
Theorem layoutOf_spec b l :
  layoutOf b = Some l
  ↔ b < 0xff
    ∧ if decide (b ∈ assigned_values assignments)
      then ∃ ops, (l, ops) ∈ assignments ∧ b ∈ OpCode.value <$> ops
      else l = OPCODE_ONLY.
Proof.
  split.
  - intros Hl. split; [by eapply layoutOf_Some_lt | by apply layoutOf_cases].
  - intros [Hb Hcase]. case_decide as Hin.
    + destruct Hcase as (ops & Hcall & Hv).
      apply list_elem_of_lookup_1 in Hcall as [i Hi].
      unfold layoutOf, OpcodeLayouts.
      by eapply run_assignments_written; eauto using assignments_NoDup.
    + subst l. by apply layoutOf_unassigned.
Qed.

(** X4: The layout [WIDE] is never the answer of the table: whatever it holds
    at an index is one of the other ten layouts. *)
Theorem layoutOf_never_WIDE b l :
  layoutOf b = Some l →
  l ∈ [OPCODE_ONLY; CONSTANT_POOL_UINT8; CONSTANT_POOL;
       CONSTANT_POOL_AND_UINT8_VALUE; UINT8_VALUE; UINT8_AND_INT8_VALUE;
       INT8_VALUE; INT16_VALUE; INT32_VALUE; ARRAY_TYPE].
Proof.
  intros Hcase%layoutOf_cases. case_decide.
  - destruct Hcase as (ops & Hcall & _).
    assert (Forall (λ call : OpcodeLayoutType.t * list OpCode.t,
                      call.1 ≠ OpcodeLayoutType.WIDE) assignments) as Hall
      by (apply (bool_decide_unpack _); vm_compute; reflexivity).
    pose proof (proj1 (Forall_forall _ _) Hall _ Hcall) as Hne. simpl in Hne.
    destruct l; try (apply (bool_decide_unpack _); vm_compute; reflexivity).
    by destruct Hne.
  - subst l. apply list_elem_of_here.
Qed.

Lemma layoutOf_never_WIDE_witness :
  OPCODE_ONLY
  ∈ [OPCODE_ONLY; CONSTANT_POOL_UINT8; CONSTANT_POOL;
     CONSTANT_POOL_AND_UINT8_VALUE; UINT8_VALUE; UINT8_AND_INT8_VALUE;
     INT8_VALUE; INT16_VALUE; INT32_VALUE; ARRAY_TYPE].
Proof.
  apply (layoutOf_never_WIDE (OpCode.value OpCode.WIDE) OPCODE_ONLY).
  vm_compute. reflexivity.
Defined.

(** ** Order and repetition of the calls *)

(** Two arrays of the same length that read the same everywhere are the
    same array. *)
Lemma JsArray_ext {A} (a b : list (option A)) :
  length a = length b →
  (∀ i, JsArray.get a i = JsArray.get b i) →
  a = b.
Proof.
  intros Hlen Hget. apply list_eq. intros i.
  destruct (decide (i < length a)) as [Hi|Hi].
  - destruct (lookup_lt_is_Some_2 a i Hi) as [x Hx].
    destruct (lookup_lt_is_Some_2 b i ltac:(lia)) as [y Hy].
    specialize (Hget i). unfold JsArray.get in Hget.
    rewrite Hx, Hy in Hget. simpl in Hget. by rewrite Hx, Hy, Hget.
  - by rewrite !lookup_ge_None_2 by lia.
Qed.

Lemma store_all_length_max {A X} (f : X → nat) (v : A) xs a :
  length (store_all f v a xs) = length a `max` max_list_with (S ∘ f) xs.
Proof.
  revert a. induction xs as [|x xs IH]; intros a; simpl.
  - lia.
  - rewrite IH, JsArray_length_set. simpl. lia.
Qed.

(** Two calls that share no index commute. *)
Lemma assignOpcodeLayout_comm l1 ops1 l2 ops2 olt :
  (∀ v, v ∈ OpCode.value <$> ops1 → v ∉ OpCode.value <$> ops2) →
  assignOpcodeLayout l1 ops1 (assignOpcodeLayout l2 ops2 olt)
  = assignOpcodeLayout l2 ops2 (assignOpcodeLayout l1 ops1 olt).
Proof.
  intros Hdisj. apply JsArray_ext.
  - rewrite !assignOpcodeLayout_eq, !store_all_length_max. lia.
  - intros b. rewrite !assignOpcodeLayout_eq.
    destruct (decide (b ∈ OpCode.value <$> ops1)) as [H1|H1];
      destruct (decide (b ∈ OpCode.value <$> ops2)) as [H2|H2].
    + by destruct (Hdisj b).
    + rewrite (store_all_written _ _ ops1) by done.
      rewrite (store_all_untouched _ _ ops2) by done.
      by rewrite store_all_written.
    + rewrite (store_all_untouched _ _ ops1) by done.
      rewrite !(store_all_written _ _ ops2) by done. done.
    + rewrite (store_all_untouched _ _ ops1) by done.
      rewrite !(store_all_untouched _ _ ops2) by done.
      by rewrite store_all_untouched.
Qed.

Lemma assigned_values_Permutation calls calls' :
  calls ≡ₚ calls' → assigned_values calls ≡ₚ assigned_values calls'.
Proof. intros Hp. unfold assigned_values. by rewrite Hp. Qed.

(** When no index is named twice, the calls may run in any order. *)
Lemma run_assignments_reorder calls calls' olt :
  calls ≡ₚ calls' →
  NoDup (assigned_values calls) →
  run_assignments calls olt = run_assignments calls' olt.
Proof.
  intros Hp. revert olt.
  induction Hp as [|call calls calls' Hp IH|c1 c2 calls|calls1 calls2 calls3 Hp1 IH1 Hp2 IH2];
    intros olt Hnd.
  - done.
  - simpl. apply IH.
    rewrite assigned_values_cons in Hnd. by apply NoDup_app in Hnd as (_ & _ & ?).
  - simpl. f_equal. apply assignOpcodeLayout_comm.
    rewrite !assigned_values_cons in Hnd.
    apply NoDup_app in Hnd as (_ & Hdisj & _).
    intros v Hv1 Hv2. apply (Hdisj v Hv2). apply elem_of_app. by left.
  - rewrite IH1 by done. apply IH2.
    by rewrite <- (assigned_values_Permutation _ _ Hp1).
Qed.

(** X5: The nine calls of the source may run in any order: every reordering
    of them builds the same table. *)
Theorem OpcodeLayouts_any_order calls :
  calls ≡ₚ assignments → run_assignments calls olt_init = OpcodeLayouts.
Proof.
  intros Hp. symmetry. apply run_assignments_reorder; [done|].
  apply assignments_NoDup.
Qed.

Lemma OpcodeLayouts_any_order_witness :
  run_assignments (reverse assignments) olt_init = OpcodeLayouts.
Proof.
  apply OpcodeLayouts_any_order. apply reverse_Permutation.
Defined.

(** What a sequence of calls stores at an index it names does not depend
    on the table it starts from. *)
Lemma run_assignments_assigned calls olt olt' b :
  b ∈ assigned_values calls →
  JsArray.get (run_assignments calls olt) b
  = JsArray.get (run_assignments calls olt') b
  ∧ is_Some (JsArray.get (run_assignments calls olt) b).
Proof.
  revert olt olt'. induction calls as [|call calls IH]; intros olt olt' Hb.
  - by apply elem_of_nil in Hb.
  - simpl. destruct (decide (b ∈ assigned_values calls)) as [Hin|Hout].
    + by apply IH.
    + rewrite assigned_values_cons, elem_of_app in Hb.
      destruct Hb as [Hb|Hb]; [|done].
      rewrite !run_assignments_untouched by done.
      rewrite !assignOpcodeLayout_eq, !store_all_written by done.
      split; [done | by eexists].
Qed.

(** X6: Running the same calls a second time changes nothing. *)
Theorem run_assignments_idempotent calls olt :
  run_assignments calls (run_assignments calls olt)
  = run_assignments calls olt.
Proof.
  apply JsArray_ext.
  - apply run_assignments_length. apply Forall_forall. intros v Hv.
    destruct (run_assignments_assigned calls olt olt v Hv) as [_ [x Hx]].
    destruct (decide (v < length (run_assignments calls olt))); [done|].
    rewrite JsArray_get_ge in Hx by lia. done.
  - intros b. destruct (decide (b ∈ assigned_values calls)) as [Hin|Hout].
    + by apply run_assignments_assigned.
    + by rewrite run_assignments_untouched.
Qed.


(** ** Constants and tags *)

(** X7: [INT_MIN] and [INT_MAX] are the ends of the 32-bit two's-complement
    range: every pattern reads as a value between them, every value
    between them is read back unchanged, and one step past either end
    wraps to the other. *)
Theorem INT_MIN_MAX_int32_range :
  (∀ x, Constants.INT_MIN ≤ Int32.to_int32 x ≤ Constants.INT_MAX)%Z
  ∧ (∀ x, Constants.INT_MIN ≤ x ≤ Constants.INT_MAX →
          Int32.to_int32 x = x)%Z
  ∧ Int32.to_int32 (Constants.INT_MAX + 1) = Constants.INT_MIN
  ∧ Int32.to_int32 (Constants.INT_MIN - 1) = Constants.INT_MAX.
Proof.
  split; [|split; [|split; vm_compute; reflexivity]].
  - intros x. unfold Int32.to_int32, Constants.INT_MIN, Constants.INT_MAX.
    change (2 ^ 32)%Z with 4294967296%Z. change (2 ^ 31)%Z with 2147483648%Z.
    pose proof (Z.mod_pos_bound x 4294967296 ltac:(lia)).
    destruct (x mod 4294967296 <? 2147483648)%Z eqn:Hlt;
      [apply Z.ltb_lt in Hlt | apply Z.ltb_ge in Hlt]; lia.
  - intros x. unfold Int32.to_int32, Constants.INT_MIN, Constants.INT_MAX.
    change (2 ^ 32)%Z with 4294967296%Z. change (2 ^ 31)%Z with 2147483648%Z.
    intros Hx.
    destruct (x mod 4294967296 <? 2147483648)%Z eqn:Hlt;
      [apply Z.ltb_lt in Hlt | apply Z.ltb_ge in Hlt];
      Z.to_euclidean_division_equations; lia.
Qed.

(** X8: [FLOAT_POS_INFINITY], two to the 128, lies strictly above every
    finite single-precision value m * 2^e, and [FLOAT_NEG_INFINITY]
    strictly below its negation (both sides scaled by 2^149, the weight
    of the smallest exponent). *)
Theorem FLOAT_INFINITY_beyond_finite m e :
  bounded 24 128 m e = true →
  (0 ≤ e + 149
   ∧ Z.pos m * 2 ^ (e + 149) < Constants.FLOAT_POS_INFINITY * 2 ^ 149
   ∧ Constants.FLOAT_NEG_INFINITY * 2 ^ 149 < - (Z.pos m * 2 ^ (e + 149)))%Z.
Proof.
  intros Hb. apply bounded_float32 in Hb.
  assert (Constants.FLOAT_POS_INFINITY * 2 ^ 149 = 2 ^ 24 * 2 ^ 253)%Z
    as Hpos by (vm_compute; reflexivity).
  assert (Constants.FLOAT_NEG_INFINITY * 2 ^ 149 = - (2 ^ 24 * 2 ^ 253))%Z
    as Hneg by (vm_compute; reflexivity).
  rewrite Hpos, Hneg.
  assert (0 < 2 ^ 253)%Z as H253 by (vm_compute; reflexivity).
  assert (0 ≤ e + 149 ∧ Z.pos m * 2 ^ (e + 149) < 2 ^ 24 * 2 ^ 253)%Z
    as [He Hlt]; [|lia].
  destruct Hb as [[[_ Hm] [Hlo Hhi]]|[Hm ->]].
  - split; [lia|].
    assert (2 ^ (e + 149) ≤ 2 ^ 253)%Z as Hpow
      by (apply Z.pow_le_mono_r; lia).
    assert (0 < 2 ^ (e + 149))%Z by (apply Z.pow_pos_nonneg; lia).
    nia.
  - split; [lia|]. change (2 ^ (-149 + 149))%Z with 1%Z.
    change (2 ^ 23)%Z with 8388608%Z in Hm.
    change (2 ^ 24)%Z with 16777216%Z. lia.
Qed.

Lemma FLOAT_INFINITY_beyond_finite_witness :
  (0 ≤ 104 + 149
   ∧ 16777215 * 2 ^ (104 + 149) < Constants.FLOAT_POS_INFINITY * 2 ^ 149
   ∧ Constants.FLOAT_NEG_INFINITY * 2 ^ 149
     < - (16777215 * 2 ^ (104 + 149)))%Z.
Proof. apply (FLOAT_INFINITY_beyond_finite 16777215 104). reflexivity. Defined.

(** X9: The tags of [ConstantPoolItemType] are pairwise distinct and lie
    between 1 and 18, so a tag byte names at most one kind of item. *)
Theorem ConstantPoolItemType_value_inj :
  (∀ a b, ConstantPoolItemType.value a = ConstantPoolItemType.value b → a = b)
  ∧ (∀ c, 1 ≤ ConstantPoolItemType.value c ≤ 18).
Proof.
  split.
  - intros a b. destruct a, b; simpl; intros H; try reflexivity; discriminate H.
  - intros c. destruct c; simpl; lia.
Qed.

(** * [Threading.java]: the producer and the consumer *)

Section ThreadingFacts.
Import Threading.

(** ** The states of a run *)

Lemma reach_set_init : init ∈ reach_set.
Proof. apply (bool_decide_unpack _). vm_compute. reflexivity. Qed.

Lemma reach_set_closed :
  Forall (λ s, Forall (λ s', s' ∈ reach_set) (successors s)) reach_set.
Proof. apply (bool_decide_unpack _). vm_compute. reflexivity. Qed.

Lemma step_successors t s s' : s' ∈ step t s → s' ∈ successors s.
Proof.
  intros Hs'. apply list_elem_of_bind. exists t. split; [done|].
  destruct t; set_solver.
Qed.

Lemma successors_step s s' : s' ∈ successors s → ∃ t, s' ∈ step t s.
Proof. intros (t & Hs' & _)%list_elem_of_bind. eauto. Qed.

Lemma reach_set_step t s s' :
  s ∈ reach_set → s' ∈ step t s → s' ∈ reach_set.
Proof.
  intros Hs Hs'%step_successors.
  pose proof (proj1 (Forall_forall _ _) reach_set_closed s Hs) as Hall.
  exact (proj1 (Forall_forall _ _) Hall s' Hs').
Qed.

Lemma exec_reach ts s s' :
  s ∈ reach_set → s' ∈ exec (Run <$> ts) s → s' ∈ reach_set.
Proof.
  revert s. induction ts as [|t ts IH]; intros s Hs Hs'; simpl in Hs'.
  - apply list_elem_of_singleton in Hs' as ->. done.
  - apply list_elem_of_bind in Hs' as (s1 & Hs' & Hs1).
    eapply IH; [|done]. by eapply reach_set_step.
Qed.

Lemma run_reach ts s : s ∈ run ts → s ∈ reach_set.
Proof. apply exec_reach, reach_set_init. Qed.

(** A property checked on [reach_set] holds in every state of a run. *)
Lemma run_invariant (P : state → Prop) ts s :
  Forall P reach_set → s ∈ run ts → P s.
Proof.
  intros Hall Hs%run_reach. exact (proj1 (Forall_forall _ _) Hall s Hs).
Qed.

Lemma stuck_successors s : (∀ t, step t s = []) → successors s = [].
Proof.
  intros Hstuck. unfold successors.
  pose proof (Hstuck Main) as Hm. pose proof (Hstuck ProducerT) as Hp.
  pose proof (Hstuck ConsumerT) as Hc. simpl in *.
  by rewrite Hm, Hp, Hc.
Qed.

(** ** Safety *)

(** X10: Whatever the scheduler does, the lines printed so far are the
    beginning of Put: 0, Got: 0, ..., Put: 4, Got: 4, and the values [get]
    has returned so far are the beginning of 0, 1, 2, 3, 4: no value is
    read twice, skipped or read before it was put. *)
Theorem run_output_prefix ts s :
  s ∈ run ts →
  out s `prefix_of` expected_out ∧ returned s `prefix_of` [0; 1; 2; 3; 4]%Z.
Proof.
  apply (run_invariant
           (λ s, out s `prefix_of` expected_out
                 ∧ returned s `prefix_of` [0; 1; 2; 3; 4]%Z)).
  apply (bool_decide_unpack _). vm_compute. reflexivity.
Qed.

Lemma run_output_prefix_witness :
  out final `prefix_of` expected_out
  ∧ returned final `prefix_of` [0; 1; 2; 3; 4]%Z.
Proof.
  apply (run_output_prefix alternating final).
  apply (bool_decide_unpack _). vm_compute. reflexivity.
Defined.

(** X11: In every state of a run the monitor of [q] is owned by the thread
    that is inside [put] or [get], by nobody when neither is, and the two
    threads are never inside together: [wait()] and [notify()] are always
    called by the owner. *)
Theorem run_monitor_owner ts s :
  s ∈ run ts →
  owner s = holder s ∧ in_put (prod s) && in_get (cons s) = false.
Proof.
  apply (run_invariant
           (λ s, owner s = holder s
                 ∧ in_put (prod s) && in_get (cons s) = false)).
  apply (bool_decide_unpack _). vm_compute. reflexivity.
Qed.

Lemma run_monitor_owner_witness :
  owner final = holder final
  ∧ in_put (prod final) && in_get (cons final) = false.
Proof.
  apply (run_monitor_owner alternating final).
  apply (bool_decide_unpack _). vm_compute. reflexivity.
Defined.

(** X12: The hand-over through the slot: when [put] is about to store, the
    slot is empty, so no unread value is overwritten; when [get] is about
    to print and return [n], the slot is full and [n] is the next value
    in the order 0, 1, 2, 3, 4. *)
Theorem run_slot_protocol ts s :
  s ∈ run ts →
  match prod s with P_store _ => valueSet s = false | _ => True end
  ∧ match cons s with
    | C_print => valueSet s = true ∧ n s = Z.of_nat (length (returned s))
    | _ => True
    end.
Proof.
  apply (run_invariant
           (λ s, match prod s with P_store _ => valueSet s = false | _ => True end
                 ∧ match cons s with
                   | C_print =>
                       valueSet s = true ∧ n s = Z.of_nat (length (returned s))
                   | _ => True
                   end)).
  apply Forall_forall. intros s' Hs'.
  assert (Forall (λ s,
            match prod s with P_store _ => negb (valueSet s) | _ => true end
            && match cons s with
               | C_print =>
                   valueSet s && bool_decide (n s = Z.of_nat (length (returned s)))
               | _ => true
               end = true) reach_set) as Hall
    by (apply (bool_decide_unpack _); vm_compute; reflexivity).
  pose proof (proj1 (Forall_forall _ _) Hall s' Hs') as Hb. simpl in Hb.
  apply andb_prop in Hb as [Hp Hc]. split.
  - destruct (prod s'); try done. by apply negb_true_iff.
  - destruct (cons s'); try done.
    apply andb_prop in Hc as [Hv Hn]. by apply bool_decide_eq_true in Hn.
Qed.

Lemma run_slot_protocol_witness :
  let s := State 0 true (Some ConsumerT) (P_loop 1) C_print M_done
                 false false ["Put: 0"] [] in
  match prod s with P_store _ => valueSet s = false | _ => True end
  ∧ match cons s with
    | C_print => valueSet s = true ∧ n s = Z.of_nat (length (returned s))
    | _ => True
    end.
Proof.
  apply (run_slot_protocol
           ([Main; Main] ++ replicate 8 ProducerT ++ replicate 2 ConsumerT)).
  apply (bool_decide_unpack _). vm_compute. reflexivity.
Defined.

(** ** Progress and termination *)

Lemma reach_set_stuck :
  Forall (λ s, successors s = [] → s = final) reach_set.
Proof. apply (bool_decide_unpack _). vm_compute. reflexivity. Qed.

Lemma reach_set_rank :
  Forall (λ s, Forall (λ s', rank s' < rank s) (successors s)) reach_set.
Proof. apply (bool_decide_unpack _). vm_compute. reflexivity. Qed.

(** X13: No deadlock: a run in which no thread can take a step any more has
    ended, all three threads are done, all ten lines are printed and
    [get] has returned 0, 1, 2, 3, 4. *)
Theorem run_stuck_is_final ts s :
  s ∈ run ts →
  (∀ t, step t s = []) →
  finished s = true
  ∧ out s = expected_out
  ∧ returned s = [0; 1; 2; 3; 4]%Z.
Proof.
  intros Hs Hstuck%stuck_successors.
  rewrite (run_invariant _ ts s reach_set_stuck Hs Hstuck).
  by vm_compute.
Qed.

Lemma run_stuck_is_final_witness :
  finished final = true
  ∧ out final = expected_out
  ∧ returned final = [0; 1; 2; 3; 4]%Z.
Proof.
  apply (run_stuck_is_final alternating final).
  - apply (bool_decide_unpack _). vm_compute. reflexivity.
  - intros []; reflexivity.
Defined.

Lemma exec_rank ts s s' :
  s ∈ reach_set → s' ∈ exec (Run <$> ts) s → length ts + rank s' ≤ rank s.
Proof.
  revert s. induction ts as [|t ts IH]; intros s Hs Hs'; simpl in Hs'.
  - apply list_elem_of_singleton in Hs' as ->. simpl. lia.
  - apply list_elem_of_bind in Hs' as (s1 & Hs' & Hs1).
    pose proof (reach_set_step _ _ _ Hs Hs1) as Hs1r.
    specialize (IH s1 Hs1r Hs').
    pose proof (proj1 (Forall_forall _ _) reach_set_rank s Hs) as Hall.
    pose proof (proj1 (Forall_forall _ _) Hall s1 (step_successors _ _ _ Hs1)).
    simpl in *. lia.
Qed.

(** X14: Termination: however the scheduler chooses, a run has at most 190
    steps. *)
Theorem run_length_bound ts : run ts ≠ [] → length ts ≤ 190.
Proof.
  intros Hne. destruct (run ts) as [|s l] eqn:Hrun; [done|].
  assert (s ∈ run ts) as Hs by (rewrite Hrun; apply list_elem_of_here).
  pose proof (exec_rank ts init s reach_set_init Hs) as Hle.
  change (rank init) with 190 in Hle. lia.
Qed.

Lemma run_length_bound_witness : length alternating ≤ 190.
Proof.
  apply run_length_bound. vm_compute. discriminate.
Defined.

Lemma exec_to_final k s :
  s ∈ reach_set → rank s ≤ k → ∃ ts, final ∈ exec (Run <$> ts) s.
Proof.
  revert s. induction k as [|k IH]; intros s Hs Hk;
    (destruct (successors s) as [|s' l] eqn:Hsucc;
     [ exists []; simpl; apply list_elem_of_singleton; symmetry;
       by apply (proj1 (Forall_forall _ _) reach_set_stuck s Hs) |]);
    assert (s' ∈ successors s) as Hs'
      by (rewrite Hsucc; apply list_elem_of_here);
    pose proof (proj1 (Forall_forall _ _) reach_set_rank s Hs) as Hall;
    pose proof (proj1 (Forall_forall _ _) Hall s' Hs') as Hlt;
    simpl in Hlt.
  - lia.
  - destruct (successors_step _ _ Hs') as [t Ht].
    destruct (IH s' (reach_set_step _ _ _ Hs Ht) ltac:(lia)) as [ts Hts].
    exists (t :: ts). simpl. apply list_elem_of_bind. eauto.
Qed.

(** X15: Whatever has happened so far, the program can still complete: from
    every state of a run some schedule leads to the end state. *)
Theorem run_can_complete ts s :
  s ∈ run ts → ∃ ts', final ∈ exec (Run <$> ts') s.
Proof.
  intros Hs%run_reach. by apply (exec_to_final (rank s)).
Qed.

Lemma run_can_complete_witness :
  ∃ ts', final ∈ exec (Run <$> ts') init.
Proof.
  apply (run_can_complete [] init). apply list_elem_of_here.
Defined.

(** ** Interrupts *)

(** X16: [get] does not test [valueSet] again after [wait()]: when the
    environment interrupts the consumer while it waits, [get] prints
    "InterruptedException caught", then prints and returns whatever [n]
    holds, whether or not a value was put. *)
Theorem get_interrupted_returns_n s :
  cons s = C_waiting → owner s = None →
  let ends :=
    exec (Interrupt ConsumerT :: replicate 6 (Run ConsumerT)) s in
  ends ≠ []
  ∧ Forall (λ s', out s' = out s ++ ["InterruptedException caught";
                                     "Got: " +:+ pretty (n s)]
                  ∧ returned s' = returned s ++ [n s]
                  ∧ cons s' = C_check (n s)) ends.
Proof.
  destruct s as [n0 vs ow p c m ip ic o r].
  cbn [cons owner out returned n]. intros -> ->.
  destruct p; cbv -[pretty String.app app];
    (split; [discriminate|]); repeat constructor;
    by rewrite <- (assoc_L (++)).
Qed.

Lemma get_interrupted_returns_n_witness :
  let s := set_cons C_waiting (set_main M_done (set_prod (P_loop 0) init)) in
  let ends :=
    exec (Interrupt ConsumerT :: replicate 6 (Run ConsumerT)) s in
  ends ≠ []
  ∧ Forall (λ s', out s' = ["InterruptedException caught"; "Got: 0"]
                  ∧ returned s' = [0%Z]
                  ∧ cons s' = C_check 0) ends.
Proof.
  apply (get_interrupted_returns_n
           (set_cons C_waiting (set_main M_done (set_prod (P_loop 0) init))));
    reflexivity.
Defined.

(** X17: [put] does not test [valueSet] again either: when the producer is
    interrupted while it waits for the slot to be emptied, it prints
    "InterruptedException caught" and stores its value over whatever the
    slot holds. *)
Theorem put_interrupted_overwrites s i :
  prod s = P_waiting i → owner s = None →
  let ends :=
    exec (Interrupt ProducerT :: replicate 6 (Run ProducerT)) s in
  ends ≠ []
  ∧ Forall (λ s', out s' = out s ++ ["InterruptedException caught";
                                     "Put: " +:+ pretty i]
                  ∧ n s' = i ∧ valueSet s' = true
                  ∧ returned s' = returned s
                  ∧ prod s' = P_exit i) ends.
Proof.
  destruct s as [n0 vs ow p c m ip ic o r].
  cbn [prod owner out returned n valueSet]. intros -> ->.
  destruct c; cbv -[pretty String.app app];
    (split; [discriminate|]); repeat constructor;
    by rewrite <- (assoc_L (++)).
Qed.

Lemma put_interrupted_overwrites_witness :
  let s := State 0 true None (P_waiting 1) C_enter M_done false false
                 ["Put: 0"] [] in
  let ends :=
    exec (Interrupt ProducerT :: replicate 6 (Run ProducerT)) s in
  ends ≠ []
  ∧ Forall (λ s', out s' = ["Put: 0"; "InterruptedException caught"; "Put: 1"]
                  ∧ n s' = 1%Z ∧ valueSet s' = true
                  ∧ returned s' = []
                  ∧ prod s' = P_exit 1) ends.
Proof.
  apply (put_interrupted_overwrites
           (State 0 true None (P_waiting 1) C_enter M_done false false
                  ["Put: 0"] []) 1);
    reflexivity.
Defined.
End ThreadingFacts.
